(** * WebSocket-to-RTMP relay: the [server.js] proxy of the canvas streaming example

    The server accepts WebSocket connections, checks that the request URL starts
    with ["/rtmp/"], spawns one [ffmpeg] child per accepted connection and
    pipes every WebSocket message into the child's standard input.  The
    development embeds the ['connection'] handler and the five listeners it
    registers, over a store of WebSocket and ChildProcess objects, and proves
    the properties of the relay on that embedding. *)

From Stdlib Require Import ZArith NArith List String Ascii Bool Lia.
From Stdlib.Strings Require Import Byte.
From stdpp Require Import base list.
Import ListNotations.

Local Open Scope N_scope.

(** ** JavaScript strings

    A JavaScript string is a sequence of UTF-16 code units. *)

Definition jsstring := list N.

Definition js (s : string) : jsstring :=
  map N_of_ascii (list_ascii_of_string s).

(** ** The request pattern

    The pattern is [^], the literal ["/rtmp/"], a capture group holding a
    greedy dot-star, and [$].  The regular expression has no flags: [.]
    matches every code unit except the four line terminators, [$] matches
    only at the end of the input. *)

Definition is_line_terminator (c : N) : bool :=
  (c =? 10) || (c =? 13) || (c =? 8232) || (c =? 8233).

Fixpoint strip_prefix (pre s : jsstring) : option jsstring :=
  match pre, s with
  | [], _ => Some s
  | p :: pre', c :: s' => if p =? c then strip_prefix pre' s' else None
  | _ :: _, [] => None
  end.

Definition dot_star_to_end (s : jsstring) : option jsstring :=
  if forallb (fun c => negb (is_line_terminator c)) s then Some s else None.

(** [req.url.match] on that pattern: [None] is JavaScript's [null], and
    [Some m1] carries the capture group [match[1]]. *)
Definition url_match (url : jsstring) : option jsstring :=
  match strip_prefix (js "/rtmp/") url with
  | Some rest => dot_star_to_end rest
  | None => None
  end.

(** ** [decodeURIComponent]

    ECMAScript's [Decode] with an empty set of preserved escapes.  Every
    ["%XX"] escape becomes an octet; an octet below 0x80 is a code unit of
    its own, an octet with [n] leading one bits ([2 <= n <= 4]) opens a
    UTF-8 sequence of [n] escaped octets that must encode a code point, and
    anything else throws [URIError] ([None] here). *)

Definition hex_digit (c : N) : option N :=
  if (48 <=? c) && (c <=? 57) then Some (c - 48)
  else if (65 <=? c) && (c <=? 70) then Some (c - 55)
  else if (97 <=? c) && (c <=? 102) then Some (c - 87)
  else None.

Inductive uri_item :=
| Lit (c : N)
| Octet (b : N).

Fixpoint unescape (s : jsstring) : option (list uri_item) :=
  match s with
  | [] => Some []
  | c :: rest =>
    if c =? 37 then
      match rest with
      | h1 :: h2 :: rest' =>
        match hex_digit h1, hex_digit h2, unescape rest' with
        | Some d1, Some d2, Some items => Some (Octet (16 * d1 + d2) :: items)
        | _, _, _ => None
        end
      | _ => None
      end
    else
      match unescape rest with
      | Some items => Some (Lit c :: items)
      | None => None
      end
  end.

Definition is_continuation (b : N) : bool := (128 <=? b) && (b <=? 191).

Definition is_surrogate (v : N) : bool := (55296 <=? v) && (v <=? 57343).

(** The UTF-16 encoding of a code point. *)
Definition utf16_encode (v : N) : jsstring :=
  if v <? 65536 then [v]
  else [55296 + (v - 65536) / 1024; 56320 + (v - 65536) mod 1024].

Definition decode2 (b0 b1 : N) : option jsstring :=
  let v := (b0 - 192) * 64 + (b1 - 128) in
  if is_continuation b1 && (128 <=? v) then Some (utf16_encode v) else None.

Definition decode3 (b0 b1 b2 : N) : option jsstring :=
  let v := (b0 - 224) * 4096 + (b1 - 128) * 64 + (b2 - 128) in
  if is_continuation b1 && is_continuation b2 && (2048 <=? v)
     && negb (is_surrogate v)
  then Some (utf16_encode v) else None.

Definition decode4 (b0 b1 b2 b3 : N) : option jsstring :=
  let v := (b0 - 240) * 262144 + (b1 - 128) * 4096 + (b2 - 128) * 64
           + (b3 - 128) in
  if is_continuation b1 && is_continuation b2 && is_continuation b3
     && (65536 <=? v) && (v <=? 1114111)
  then Some (utf16_encode v) else None.

Definition prepend (u : option jsstring) (r : option jsstring) : option jsstring :=
  match u, r with
  | Some a, Some b => Some (a ++ b)
  | _, _ => None
  end.

Fixpoint decode_items (items : list uri_item) : option jsstring :=
  match items with
  | [] => Some []
  | Lit c :: rest => prepend (Some [c]) (decode_items rest)
  | Octet b :: rest =>
    if b <? 128 then prepend (Some [b]) (decode_items rest)
    else if b <? 192 then None
    else if b <? 224 then
      match rest with
      | Octet b1 :: rest' => prepend (decode2 b b1) (decode_items rest')
      | _ => None
      end
    else if b <? 240 then
      match rest with
      | Octet b1 :: Octet b2 :: rest' =>
        prepend (decode3 b b1 b2) (decode_items rest')
      | _ => None
      end
    else if b <? 248 then
      match rest with
      | Octet b1 :: Octet b2 :: Octet b3 :: rest' =>
        prepend (decode4 b b1 b2 b3) (decode_items rest')
      | _ => None
      end
    else None
  end.

Definition decodeURIComponent (s : jsstring) : option jsstring :=
  match unescape s with
  | Some items => decode_items items
  | None => None
  end.

(** ** Values, objects and effects *)

Inductive value :=
| Undefined
| Null
| Num (z : Z)
| Str (s : jsstring)
| Buf (b : list byte)
| Err (name message : jsstring).

(** The closures the ['connection'] handler creates, with the variables
    they capture: [ws] is the index of a WebSocket object, [ffmpeg] the
    index of a ChildProcess object. *)
Inductive listener :=
| ffmpeg_on_close (ws : nat)
| stdin_on_error
| stderr_on_data
| ws_on_message (ffmpeg : nat)
| ws_on_close (ffmpeg : nat).

(** An EventEmitter's table: event name and listener, in registration
    order. *)
Definition events := list (string * listener).

(** [readyState] of a socket handed to the handler. *)
Inductive ready_state := OPEN | CLOSING | CLOSED.

Record WebSocket := mkWebSocket {
  readyState : ready_state;
  ws_events : events
}.

(** A child process object with the listener tables of its four emitters:
    the process itself and its three streams.  [exited] is set when the
    ['close'] event of the process is delivered, that is when the process
    has ended and its streams are closed. *)
Record ChildProcess := mkChildProcess {
  spawnfile : jsstring;
  spawnargs : list jsstring;
  exited : bool;
  child_events : events;
  stdin_events : events;
  stdout_events : events;
  stderr_events : events
}.

(** What [console.log] receives: a value as it is, the string built with
    [+] from its parts, or the [toString()] of a value. *)
Inductive logged :=
| Arg (v : value)
| Plus (parts : list value)
| ToString (v : value).

(** The calls the server makes on the outside world, in program order. *)
Inductive action :=
| Log (args : list logged)
| Terminate (ws : nat)
| Spawn (child : nat) (file : jsstring) (args : list jsstring)
| Write (child : nat) (chunk : value)
| Kill (child : nat) (signal : jsstring).

Record server := mkServer {
  sockets : list WebSocket;
  children : list ChildProcess;
  trace : list action;
  uncaught : option value
}.

Definition init : server :=
  {| sockets := []; children := []; trace := []; uncaught := None |}.

(** ** Statements: state passing with exceptions *)

Inductive completion (A : Type) :=
| Normal (a : A) (s : server)
| Throw (e : value) (s : server).

Arguments Normal {A} a s.
Arguments Throw {A} e s.

Definition M (A : Type) := server -> completion A.

Definition ret {A} (a : A) : M A := fun s => Normal a s.

Definition throw {A} (e : value) : M A := fun s => Throw e s.

Definition bind {A B} (m : M A) (k : A -> M B) : M B :=
  fun s =>
    match m s with
    | Normal a s' => k a s'
    | Throw e s' => Throw e s'
    end.

Notation "'let!' x ':=' m 'in' k" := (bind m (fun x => k))
  (at level 10, x name, m at level 100, k at level 200).
Notation "m >> k" := (bind m (fun _ => k))
  (at level 100, k at level 200, right associativity).

Definition do_action (a : action) : M unit :=
  fun s =>
    Normal tt {| sockets := sockets s; children := children s;
                 trace := trace s ++ [a]; uncaught := uncaught s |}.

Definition update_socket (ws : nat) (f : WebSocket -> WebSocket) : M unit :=
  fun s =>
    Normal tt {| sockets := alter f ws (sockets s); children := children s;
                 trace := trace s; uncaught := uncaught s |}.

Definition update_child (p : nat) (f : ChildProcess -> ChildProcess) : M unit :=
  fun s =>
    Normal tt {| sockets := sockets s; children := alter f p (children s);
                 trace := trace s; uncaught := uncaught s |}.

(** ** The runtime calls the server uses *)

Definition console_log (args : list logged) : M unit := do_action (Log args).

(** [ws.terminate()]: a socket that is not yet closed is destroyed and
    goes to CLOSING; its ['close'] event follows from the outside. *)
Definition terminated (x : WebSocket) : WebSocket :=
  match readyState x with
  | CLOSED => x
  | _ => {| readyState := CLOSING; ws_events := ws_events x |}
  end.

Definition ws_terminate (ws : nat) : M unit :=
  update_socket ws terminated >> do_action (Terminate ws).

Definition ws_on (ws : nat) (name : string) (l : listener) : M unit :=
  update_socket ws (fun x =>
    {| readyState := readyState x; ws_events := ws_events x ++ [(name, l)] |}).

(** A string with the code unit U+0000. *)
Definition has_nul (s : jsstring) : bool := existsb (N.eqb 0) s.

(** [child_process.spawn(file, args)] validates its arguments first: a
    file name or an argument that holds U+0000 is refused with a TypeError,
    thrown to the caller, and nothing is spawned.  Otherwise it returns a
    new ChildProcess object; a failure to start the program is reported
    later, by an ['error'] event on that object. *)
Definition child_process_spawn (file : jsstring) (args : list jsstring) : M nat :=
  fun s =>
    if existsb has_nul (file :: args)
    then Throw (Err (js "TypeError") (js "ERR_INVALID_ARG_VALUE")) s
    else
      let p := length (children s) in
      Normal p {| sockets := sockets s;
                  children := children s ++
                    [ {| spawnfile := file; spawnargs := args; exited := false;
                         child_events := []; stdin_events := [];
                         stdout_events := []; stderr_events := [] |} ];
                  trace := trace s ++ [Spawn p file args];
                  uncaught := uncaught s |}.

Definition child_on (p : nat) (name : string) (l : listener) : M unit :=
  update_child p (fun c =>
    {| spawnfile := spawnfile c; spawnargs := spawnargs c; exited := exited c;
       child_events := child_events c ++ [(name, l)];
       stdin_events := stdin_events c; stdout_events := stdout_events c;
       stderr_events := stderr_events c |}).

Definition stdin_on (p : nat) (name : string) (l : listener) : M unit :=
  update_child p (fun c =>
    {| spawnfile := spawnfile c; spawnargs := spawnargs c; exited := exited c;
       child_events := child_events c;
       stdin_events := stdin_events c ++ [(name, l)];
       stdout_events := stdout_events c; stderr_events := stderr_events c |}).

Definition stderr_on (p : nat) (name : string) (l : listener) : M unit :=
  update_child p (fun c =>
    {| spawnfile := spawnfile c; spawnargs := spawnargs c; exited := exited c;
       child_events := child_events c; stdin_events := stdin_events c;
       stdout_events := stdout_events c;
       stderr_events := stderr_events c ++ [(name, l)] |}).

(** [stream.write(chunk)] accepts a string or a Buffer and throws a
    TypeError on anything else.  A write that fails later is reported by
    an ['error'] event on the stream. *)
Definition stdin_write (p : nat) (chunk : value) : M unit :=
  match chunk with
  | Buf _ | Str _ => do_action (Write p chunk)
  | _ => throw (Err (js "TypeError") (js "ERR_INVALID_ARG_TYPE"))
  end.

(** [child.kill(signal)]: no exception, whether the child still runs or
    not. *)
Definition child_kill (p : nat) (signal : jsstring) : M unit :=
  do_action (Kill p signal).

Definition decodeURIComponent_call (s : jsstring) : M jsstring :=
  match decodeURIComponent s with
  | Some d => ret d
  | None => throw (Err (js "URIError") (js "URI malformed"))
  end.

(** ** The listeners (closure bodies of [server.js]) *)

Definition arg (i : nat) (args : list value) : value := nth i args Undefined.

Definition call (l : listener) (args : list value) : M unit :=
  match l with
  | ffmpeg_on_close ws =>
    let code := arg 0 args in
    let signal := arg 1 args in
    console_log [Plus [Str (js "FFmpeg child process closed, code "); code;
                       Str (js ", signal "); signal]] >>
    ws_terminate ws
  | stdin_on_error =>
    let e := arg 0 args in
    console_log [Arg (Str (js "FFmpeg STDIN Error")); Arg e]
  | stderr_on_data =>
    let data := arg 0 args in
    console_log [Arg (Str (js "FFmpeg STDERR:")); ToString data]
  | ws_on_message ffmpeg =>
    let msg := arg 0 args in
    console_log [Arg (Str (js "DATA")); Arg msg] >>
    stdin_write ffmpeg msg
  | ws_on_close ffmpeg =>
    child_kill ffmpeg (js "SIGINT")
  end.

(** ** The ['connection'] handler *)

Definition ffmpeg_args (rtmpUrl : jsstring) : list jsstring :=
  [ js "-f"; js "lavfi"; js "-i"; js "anullsrc";
    js "-i"; js "-";
    js "-shortest";
    js "-vcodec"; js "copy";
    js "-acodec"; js "aac";
    js "-f"; js "flv";
    rtmpUrl ].

Definition on_connection (ws : nat) (url : jsstring) : M unit :=
  match url_match url with
  | None => ws_terminate ws
  | Some m1 =>
    let! rtmpUrl := decodeURIComponent_call m1 in
    console_log [Arg (Str (js "Target RTMP URL:")); Arg (Str rtmpUrl)] >>
    let! ffmpeg := child_process_spawn (js "ffmpeg") (ffmpeg_args rtmpUrl) in
    child_on ffmpeg "close" (ffmpeg_on_close ws) >>
    stdin_on ffmpeg "error" stdin_on_error >>
    stderr_on ffmpeg "data" stderr_on_data >>
    ws_on ws "message" (ws_on_message ffmpeg) >>
    ws_on ws "close" (ws_on_close ffmpeg)
  end.

(** ** Event dispatch

    [emitter.emit(name, ...args)] calls the listeners registered for [name]
    in registration order; an exception of a listener propagates to the
    caller of [emit].  An ['error'] event without a listener is thrown. *)

Definition listeners (tbl : events) (name : string) : list listener :=
  map snd (filter (fun e => String.eqb (fst e) name) tbl).

Fixpoint call_all (ls : list listener) (args : list value) : M unit :=
  match ls with
  | [] => ret tt
  | l :: ls' => call l args >> call_all ls' args
  end.

Definition emit (tbl : events) (name : string) (args : list value) : M unit :=
  match listeners tbl name with
  | [] => if String.eqb name "error" then throw (arg 0 args) else ret tt
  | ls => call_all ls args
  end.

Definition emit_on {A} (objs : server -> list A) (tbl : A -> events)
    (i : nat) (name : string) (args : list value) : M unit :=
  fun s =>
    match objs s !! i with
    | Some x => emit (tbl x) name args s
    | None => Normal tt s
    end.

(** ** What the outside world delivers to the server

    [Connection] is the ['connection'] event of the WebSocket server, for a
    new socket and a request with the given [url].  The other events are
    emitted on an existing object: ['message'], ['close'] and ['error']
    (a protocol or socket error) on a socket, ['close'] and ['error'] on a
    child process (the latter reports a failed spawn), ['error'] on its
    standard input (a failed write), ['data'] and ['error'] on its standard
    output and standard error. *)

Inductive event :=
| Connection (url : jsstring)
| WsMessage (ws : nat) (chunk : list byte)
| WsClose (ws : nat) (code : Z)
| ChildClose (child : nat) (code : option Z) (signal : option jsstring)
| ChildError (child : nat) (message : jsstring)
| StdinError (child : nat) (message : jsstring)
| StdoutData (child : nat) (chunk : list byte)
| StderrData (child : nat) (chunk : list byte)
| WsError (ws : nat) (message : jsstring)
| StdoutError (child : nat) (message : jsstring)
| StderrError (child : nat) (message : jsstring).

Definition nullable {A} (f : A -> value) (o : option A) : value :=
  match o with
  | Some a => f a
  | None => Null
  end.

(** The WebSocket server creates the socket object of a new connection,
    open and without listeners, and hands it to the ['connection']
    handler. *)
Definition accept_socket : M nat :=
  fun s =>
    Normal (length (sockets s))
      {| sockets := sockets s ++ [ {| readyState := OPEN; ws_events := [] |} ];
         children := children s; trace := trace s; uncaught := uncaught s |}.

Definition closed (x : WebSocket) : WebSocket :=
  {| readyState := CLOSED; ws_events := ws_events x |}.

Definition ended (c : ChildProcess) : ChildProcess :=
  {| spawnfile := spawnfile c; spawnargs := spawnargs c; exited := true;
     child_events := child_events c; stdin_events := stdin_events c;
     stdout_events := stdout_events c; stderr_events := stderr_events c |}.

(** The turn of the event loop for one event: the state change that comes
    with the event, then [emit] on the object concerned. *)
Definition deliver (ev : event) : M unit :=
  match ev with
  | Connection url =>
    let! ws := accept_socket in on_connection ws url
  | WsMessage ws chunk =>
    emit_on sockets ws_events ws "message" [Buf chunk]
  | WsClose ws code =>
    update_socket ws closed >>
    emit_on sockets ws_events ws "close" [Num code]
  | ChildClose p code signal =>
    update_child p ended >>
    emit_on children child_events p "close" [nullable Num code; nullable Str signal]
  | ChildError p message =>
    emit_on children child_events p "error" [Err (js "Error") message]
  | StdinError p message =>
    emit_on children stdin_events p "error" [Err (js "Error") message]
  | StdoutData p chunk =>
    emit_on children stdout_events p "data" [Buf chunk]
  | StderrData p chunk =>
    emit_on children stderr_events p "data" [Buf chunk]
  | WsError ws message =>
    emit_on sockets ws_events ws "error" [Err (js "Error") message]
  | StdoutError p message =>
    emit_on children stdout_events p "error" [Err (js "Error") message]
  | StderrError p message =>
    emit_on children stderr_events p "error" [Err (js "Error") message]
  end.

(** An exception that reaches the event loop is uncaught: the server has
    no ['uncaughtException'] handler, so the Node process ends and handles
    no further event. *)
Definition step (ev : event) (s : server) : server :=
  match uncaught s with
  | Some _ => s
  | None =>
    match deliver ev s with
    | Normal _ s' => s'
    | Throw e s' =>
      {| sockets := sockets s'; children := children s'; trace := trace s';
         uncaught := Some e |}
    end
  end.

Definition run (evs : list event) (s : server) : server :=
  fold_left (fun s ev => step ev s) evs s.

Definition reachable (s : server) : Prop :=
  exists evs, run evs init = s.

(** ** Observations on a state *)

Definition session_ws_events (p : nat) : events :=
  [("message"%string, ws_on_message p); ("close"%string, ws_on_close p)].

(** Socket [ws] and child [p] form a session: the listeners of [ws] are
    the two closures over [p] that the handler registers. *)
Definition session (s : server) (ws p : nat) : Prop :=
  exists x, sockets s !! ws = Some x /\ ws_events x = session_ws_events p.

Definition socket_state (s : server) (ws : nat) : option ready_state :=
  readyState <$> sockets s !! ws.

Definition writes_to (p : nat) (t : list action) : list value :=
  flat_map (fun a => match a with
                     | Write q v => if Nat.eqb q p then [v] else []
                     | _ => []
                     end) t.

Definition messages_on (ws : nat) (evs : list event) : list value :=
  flat_map (fun ev => match ev with
                      | WsMessage w c => if Nat.eqb w ws then [Buf c] else []
                      | _ => []
                      end) evs.

Definition spawned (t : list action) : list (nat * jsstring * list jsstring) :=
  flat_map (fun a => match a with
                     | Spawn p f args => [(p, f, args)]
                     | _ => []
                     end) t.

Arguments js : simpl never.

Definition session_child (ws : nat) (dest : jsstring) : ChildProcess :=
  {| spawnfile := js "ffmpeg"; spawnargs := ffmpeg_args dest; exited := false;
     child_events := [("close"%string, ffmpeg_on_close ws)];
     stdin_events := [("error"%string, stdin_on_error)];
     stdout_events := [];
     stderr_events := [("data"%string, stderr_on_data)] |}.

Definition child_close_events (ws : nat) : events :=
  [("close"%string, ffmpeg_on_close ws)].

(** The shape of the states the server can reach: sockets and children are
    paired by the listeners registered on them, a child that has ended has
    no open socket, and the child of a closed socket has been signalled. *)
Record wf (s : server) : Prop := {
  wf_socket : forall ws x,
    sockets s !! ws = Some x ->
    ws_events x = [] \/
    exists p c, ws_events x = session_ws_events p /\
                children s !! p = Some c /\
                child_events c = child_close_events ws;
  wf_child : forall p c,
    children s !! p = Some c ->
    stdin_events c = [("error"%string, stdin_on_error)] /\
    stdout_events c = [] /\
    stderr_events c = [("data"%string, stderr_on_data)] /\
    exists ws x, child_events c = child_close_events ws /\
                 sockets s !! ws = Some x /\
                 ws_events x = session_ws_events p;
  wf_exited : forall p c ws x,
    children s !! p = Some c ->
    exited c = true ->
    child_events c = child_close_events ws ->
    sockets s !! ws = Some x ->
    readyState x <> OPEN;
  wf_closed : forall ws x p,
    sockets s !! ws = Some x ->
    readyState x = CLOSED ->
    ws_events x = session_ws_events p ->
    In (Kill p (js "SIGINT")) (trace s)
}.

(** Events that run no code of the server in a well-formed state: a
    message on a socket without listeners, an event of a socket or of a
    child that does not exist, data on the standard output of a child. *)
Definition idle (s : server) (ev : event) : Prop :=
  match ev with
  | Connection _ | WsClose _ _ => False
  | WsMessage ws _ => forall x, sockets s !! ws = Some x -> ws_events x = []
  | ChildClose p _ _ | ChildError p _ | StdinError p _ | StderrData p _
  | StdoutError p _ | StderrError p _ =>
    children s !! p = None
  | StdoutData _ _ => True
  | WsError ws _ => sockets s !! ws = None
  end.

(** The transitions of a running, well-formed server, one constructor per
    path through the handlers. *)
Inductive step_view (s : server) : event -> server -> Prop :=
| view_reject url :
    url_match url = None ->
    step_view s (Connection url)
      {| sockets := sockets s ++ [ {| readyState := CLOSING; ws_events := [] |} ];
         children := children s;
         trace := trace s ++ [Terminate (length (sockets s))];
         uncaught := None |}
| view_malformed url m1 :
    url_match url = Some m1 ->
    decodeURIComponent m1 = None ->
    step_view s (Connection url)
      {| sockets := sockets s ++ [ {| readyState := OPEN; ws_events := [] |} ];
         children := children s; trace := trace s;
         uncaught := Some (Err (js "URIError") (js "URI malformed")) |}
| view_accept url m1 dest :
    url_match url = Some m1 ->
    decodeURIComponent m1 = Some dest ->
    has_nul dest = false ->
    step_view s (Connection url)
      {| sockets := sockets s ++
           [ {| readyState := OPEN;
                ws_events := session_ws_events (length (children s)) |} ];
         children := children s ++ [session_child (length (sockets s)) dest];
         trace := trace s ++
           [ Log [Arg (Str (js "Target RTMP URL:")); Arg (Str dest)];
             Spawn (length (children s)) (js "ffmpeg") (ffmpeg_args dest) ];
         uncaught := None |}
| view_message ws x p c chunk :
    sockets s !! ws = Some x ->
    ws_events x = session_ws_events p ->
    children s !! p = Some c ->
    child_events c = child_close_events ws ->
    step_view s (WsMessage ws chunk)
      {| sockets := sockets s; children := children s;
         trace := trace s ++
           [ Log [Arg (Str (js "DATA")); Arg (Buf chunk)]; Write p (Buf chunk) ];
         uncaught := None |}
| view_ws_close ws x p c code :
    sockets s !! ws = Some x ->
    ws_events x = session_ws_events p ->
    children s !! p = Some c ->
    child_events c = child_close_events ws ->
    step_view s (WsClose ws code)
      {| sockets := alter closed ws (sockets s); children := children s;
         trace := trace s ++ [Kill p (js "SIGINT")];
         uncaught := None |}
| view_ws_close_idle ws code :
    (forall x, sockets s !! ws = Some x -> ws_events x = []) ->
    step_view s (WsClose ws code)
      {| sockets := alter closed ws (sockets s); children := children s;
         trace := trace s; uncaught := None |}
| view_child_close p c ws x code signal :
    children s !! p = Some c ->
    child_events c = child_close_events ws ->
    sockets s !! ws = Some x ->
    ws_events x = session_ws_events p ->
    step_view s (ChildClose p code signal)
      {| sockets := alter terminated ws (sockets s);
         children := alter ended p (children s);
         trace := trace s ++
           [ Log [Plus [Str (js "FFmpeg child process closed, code ");
                        nullable Num code; Str (js ", signal ");
                        nullable Str signal]];
             Terminate ws ];
         uncaught := None |}
| view_child_error p c message :
    children s !! p = Some c ->
    step_view s (ChildError p message)
      {| sockets := sockets s; children := children s; trace := trace s;
         uncaught := Some (Err (js "Error") message) |}
| view_stdin_error p c message :
    children s !! p = Some c ->
    step_view s (StdinError p message)
      {| sockets := sockets s; children := children s;
         trace := trace s ++
           [ Log [Arg (Str (js "FFmpeg STDIN Error"));
                  Arg (Err (js "Error") message)] ];
         uncaught := None |}
| view_stderr_data p c chunk :
    children s !! p = Some c ->
    step_view s (StderrData p chunk)
      {| sockets := sockets s; children := children s;
         trace := trace s ++
           [ Log [Arg (Str (js "FFmpeg STDERR:")); ToString (Buf chunk)] ];
         uncaught := None |}
| view_idle ev :
    idle s ev ->
    step_view s ev s
| view_spawn_throws url m1 dest :
    url_match url = Some m1 ->
    decodeURIComponent m1 = Some dest ->
    has_nul dest = true ->
    step_view s (Connection url)
      {| sockets := sockets s ++ [ {| readyState := OPEN; ws_events := [] |} ];
         children := children s;
         trace := trace s ++
           [ Log [Arg (Str (js "Target RTMP URL:")); Arg (Str dest)] ];
         uncaught := Some (Err (js "TypeError") (js "ERR_INVALID_ARG_VALUE")) |}
| view_ws_error ws x message :
    sockets s !! ws = Some x ->
    step_view s (WsError ws message)
      {| sockets := sockets s; children := children s; trace := trace s;
         uncaught := Some (Err (js "Error") message) |}
| view_stdout_error p c message :
    children s !! p = Some c ->
    step_view s (StdoutError p message)
      {| sockets := sockets s; children := children s; trace := trace s;
         uncaught := Some (Err (js "Error") message) |}
| view_stderr_error p c message :
    children s !! p = Some c ->
    step_view s (StderrError p message)
      {| sockets := sockets s; children := children s; trace := trace s;
         uncaught := Some (Err (js "Error") message) |}.

(** The ['message'] and ['close'] events of one socket. *)
Definition on_socket (ws : nat) (ev : event) : Prop :=
  match ev with
  | WsMessage w _ | WsClose w _ => w = ws
  | _ => False
  end.

(** The size of a chunk, in bytes for a Buffer and in code units for a
    string. *)
Definition size (v : value) : nat :=
  match v with
  | Buf b => length b
  | Str s => length s
  | _ => 0
  end.

(** A connection, three chunks on its socket, and the close of the socket. *)
Definition relay_scenario (url : jsstring) (c1 c2 c3 : list byte) : list event :=
  [ Connection url; WsMessage 0 c1; WsMessage 0 c2; WsMessage 0 c3;
    WsClose 0 1000%Z ].

(** ** [encodeURIComponent] and the URL the client opens

    The page opens its WebSocket on the path ['/rtmp/'] followed by
    [encodeURIComponent(createRes.stream_url)].  ECMAScript's [Encode]
    keeps the unreserved code units, and replaces every other code point by
    the ["%XX"] escapes of its UTF-8 octets, in upper-case hexadecimal; a
    surrogate without its partner throws [URIError] ([None] here). *)

Definition is_unreserved (c : N) : bool :=
  ((65 <=? c) && (c <=? 90)) || ((97 <=? c) && (c <=? 122)) ||
  ((48 <=? c) && (c <=? 57)) ||
  existsb (N.eqb c) [45; 95; 46; 33; 126; 42; 39; 40; 41].

Definition hex_char (d : N) : N := if d <? 10 then 48 + d else 55 + d.

Definition percent (b : N) : jsstring :=
  [37; hex_char (b / 16); hex_char (b mod 16)].

Definition utf8_encode (v : N) : list N :=
  if v <? 128 then [v]
  else if v <? 2048 then [192 + v / 64; 128 + v mod 64]
  else if v <? 65536 then
    [224 + v / 4096; 128 + (v / 64) mod 64; 128 + v mod 64]
  else
    [240 + v / 262144; 128 + (v / 4096) mod 64; 128 + (v / 64) mod 64;
     128 + v mod 64].

Definition is_high_surrogate (c : N) : bool := (55296 <=? c) && (c <=? 56319).

Definition is_low_surrogate (c : N) : bool := (56320 <=? c) && (c <=? 57343).

Definition pair_code_point (h l : N) : N :=
  (h - 55296) * 1024 + (l - 56320) + 65536.

Definition escape (v : N) : jsstring := flat_map percent (utf8_encode v).

Fixpoint encodeURIComponent (s : jsstring) : option jsstring :=
  match s with
  | [] => Some []
  | c :: rest =>
    if is_unreserved c then prepend (Some [c]) (encodeURIComponent rest)
    else if is_low_surrogate c then None
    else if negb (is_high_surrogate c) then
      prepend (Some (escape c)) (encodeURIComponent rest)
    else
      match rest with
      | l :: rest' =>
        if is_low_surrogate l
        then prepend (Some (escape (pair_code_point c l))) (encodeURIComponent rest')
        else None
      | [] => None
      end
  end.

(** The path of the URL that the page passes to [new WebSocket]; scheme
    and host come before it. *)
Definition websocket_path (stream_url : jsstring) : option jsstring :=
  match encodeURIComponent stream_url with
  | Some e => Some (js "/rtmp/" ++ e)
  | None => None
  end.

(** A JavaScript string holds 16-bit code units. *)
Definition valid_jsstring (s : jsstring) : Prop := Forall (fun c => c < 65536) s.

(** The alphabet of an encoded component: the unreserved code units and
    the percent sign. *)
Definition uri_char (c : N) : Prop := is_unreserved c = true \/ c = 37.

Definition no_line_terminator (s : jsstring) : Prop :=
  forallb (fun c => negb (is_line_terminator c)) s = true.

(** ** The canvas animation ([www/js/canvasFill.js])

    The closure variables of the script, and the number of callbacks that
    [window.requestAnimationFrame] holds.  The drawing calls of [onFrame]
    on the 2D context read these variables and the clock, and assign none
    of them; of these calls the model keeps only what decides whether the
    statements after them run.  Numbers are the integers the script
    computes with. *)
Record animation := mkAnimation {
  frameCount : Z;
  rectState : list Z;
  rectStateVector : list Z;
  requested : nat
}.

(** The variables as the script initialises them. *)
Definition animation_start : animation :=
  {| frameCount := 0; rectState := [0; 0; 10]%Z; rectStateVector := [1; 1; 1]%Z;
     requested := 0 |}.

(** [onFrame]: request the next frame, count the frame, draw; then turn
    each component of the vector at its bounds ([canvas.width],
    [canvas.height], and 5 to 200 for the side of the rectangle) and add
    the vector to the state, index by index.  On a canvas of width or
    height 0, [ctx.drawImage(canvas, ...)] throws InvalidStateError: the
    call ends there, after the request and the count, and the browser
    reports the exception. *)
Definition onFrame (width height : Z) (a : animation) : animation :=
  if ((width =? 0) || (height =? 0))%Z then
    {| frameCount := frameCount a + 1; rectState := rectState a;
       rectStateVector := rectStateVector a; requested := S (requested a) |}
  else
  let r := rectState a in
  let v := rectStateVector a in
  let v := if (r !!! 0%nat >=? width)%Z then <[0%nat := (-1)%Z]> v else v in
  let v := if (r !!! 0%nat <=? 0)%Z then <[0%nat := 1%Z]> v else v in
  let v := if (r !!! 1%nat >=? height)%Z then <[1%nat := (-1)%Z]> v else v in
  let v := if (r !!! 1%nat <=? 0)%Z then <[1%nat := 1%Z]> v else v in
  let v := if (r !!! 2%nat >=? 200)%Z then <[2%nat := (-1)%Z]> v else v in
  let v := if (r !!! 2%nat <=? 5)%Z then <[2%nat := 1%Z]> v else v in
  let r := fold_left (fun r i => <[i := (r !!! i + v !!! i * 1)%Z]> r)
                     (seq 0 (length r)) r in
  {| frameCount := frameCount a + 1; rectState := r; rectStateVector := v;
     requested := S (requested a) |}.

(** The [DOMContentLoaded] listener ends with a direct call of [onFrame]. *)
Definition onDOMContentLoaded (width height : Z) : animation :=
  onFrame width height animation_start.

(** The browser runs one requested callback. *)
Definition animation_frame (width height : Z) (a : animation) : animation :=
  match requested a with
  | O => a
  | S n =>
    onFrame width height
      {| frameCount := frameCount a; rectState := rectState a;
         rectStateVector := rectStateVector a; requested := n |}
  end.

(** The variables after the page load and [n] animation frames. *)
Definition frames (width height : Z) (n : nat) : animation :=
  Nat.iter n (animation_frame width height) (onDOMContentLoaded width height).

(** The direction of one component after the two tests at its bounds. *)
Definition axis_dir (lo hi u v : Z) : Z :=
  (if u <=? lo then 1 else if u >=? hi then -1 else v)%Z.

(** The triangle wave between 0 and [m], of period [2 * m]. *)
Definition tri (m n : Z) : Z :=
  (let r := n mod (2 * m) in if r <=? m then r else 2 * m - r)%Z.


(** Component [u], moving in direction [v], is at phase [n] of the wave. *)
Definition on_wave (m n u v : Z) : Prop :=
  exists k r : Z,
    (0 <= k /\ 0 <= r < 2 * m /\ n = 2 * m * k + r /\
     ((r <= m /\ u = r) \/ (m < r /\ u = 2 * m - r)) /\
     (0 < r < m -> v = 1) /\ (m < r -> v = -1))%Z.


(** After [k] calls of [onFrame] the three components are on their waves. *)
Definition wave_inv (W H : Z) (k : Z) (a : animation) : Prop :=
  exists x y z vx vy vz : Z,
    rectState a = [x; y; z] /\ rectStateVector a = [vx; vy; vz] /\
    requested a = 1%nat /\
    on_wave W k (x - 0) vx /\ on_wave H k (y - 0) vy /\
    on_wave 195 (k + 5) (z - 5) vz.

(** ** Further observations on traces and events *)

Definition kills_to (p : nat) (t : list action) : list jsstring :=
  flat_map (fun a => match a with
                     | Kill q sig => if Nat.eqb q p then [sig] else []
                     | _ => []
                     end) t.

Definition terminations_of (ws : nat) (t : list action) : nat :=
  length (List.filter (fun a => match a with
                           | Terminate w => Nat.eqb w ws
                           | _ => false
                           end) t).

Definition closes_of (ws : nat) (evs : list event) : nat :=
  length (List.filter (fun ev => match ev with
                            | WsClose w _ => Nat.eqb w ws
                            | _ => false
                            end) evs).

(** The events emitted on the socket [ws] or on the child [p] and its
    streams. *)
Definition concerns (ws p : nat) (ev : event) : bool :=
  match ev with
  | Connection _ => false
  | WsMessage w _ | WsClose w _ | WsError w _ => Nat.eqb w ws
  | ChildClose q _ _ | ChildError q _ | StdinError q _
  | StdoutData q _ | StderrData q _
  | StdoutError q _ | StderrError q _ => Nat.eqb q p
  end.

Definition is_log (a : action) : bool :=
  match a with
  | Log _ => true
  | _ => false
  end.

Definition has_listeners (x : WebSocket) : bool :=
  match ws_events x with
  | [] => false
  | _ :: _ => true
  end.

(** * Properties *)

Example decode_rtmp_url :
  decodeURIComponent (js "rtmp%3A%2F%2Fhost%2Fapp%2Fkey") = Some (js "rtmp://host/app/key").
Proof. reflexivity. Qed.

Example decode_euro : decodeURIComponent (js "%E2%82%AC") = Some [8364].
Proof. reflexivity. Qed.

Example decode_astral : decodeURIComponent (js "%F0%9F%98%80") = Some [55357; 56832].
Proof. reflexivity. Qed.

Example decode_lone_percent : decodeURIComponent (js "100%") = None.
Proof. reflexivity. Qed.

Example decode_overlong : decodeURIComponent (js "%C0%80") = None.
Proof. reflexivity. Qed.

Example run_scenario :
  trace (run [Connection (js "/rtmp/x"); WsMessage 0 [x00]; WsClose 0 1000%Z] init)
  = [ Log [Arg (Str (js "Target RTMP URL:")); Arg (Str (js "x"))];
      Spawn 0 (js "ffmpeg") (ffmpeg_args (js "x"));
      Log [Arg (Str (js "DATA")); Arg (Buf [x00])];
      Write 0 (Buf [x00]);
      Kill 0 (js "SIGINT") ].
Proof. reflexivity. Qed.

(** ** Equations of the handlers *)

Lemma alter_snoc {A} (f : A -> A) (l : list A) (x : A) :
  alter f (length l) (l ++ [x]) = l ++ [f x].
Proof.
  replace (length l) with (length l + 0)%nat by lia.
  by rewrite alter_app_r.
Qed.

Lemma alter_absent {A} (f : A -> A) (l : list A) (i : nat) :
  l !! i = None -> alter f i l = l.
Proof.
  revert i. induction l as [|a l IH]; intros [|i] H; simpl in *; try done.
  f_equal. by apply IH.
Qed.

Lemma deliver_connection_reject s url :
  url_match url = None ->
  deliver (Connection url) s =
  Normal tt {| sockets := sockets s ++ [ {| readyState := CLOSING; ws_events := [] |} ];
               children := children s;
               trace := trace s ++ [Terminate (length (sockets s))];
               uncaught := uncaught s |}.
Proof.
  intros Hm. unfold deliver, bind, accept_socket, on_connection. rewrite Hm.
  unfold ws_terminate, bind, update_socket, do_action. simpl.
  by rewrite alter_snoc.
Qed.

Lemma deliver_connection_malformed s url m1 :
  url_match url = Some m1 ->
  decodeURIComponent m1 = None ->
  deliver (Connection url) s =
  Throw (Err (js "URIError") (js "URI malformed"))
        {| sockets := sockets s ++ [ {| readyState := OPEN; ws_events := [] |} ];
           children := children s; trace := trace s; uncaught := uncaught s |}.
Proof.
  intros Hm Hd. unfold deliver, bind, accept_socket, on_connection. rewrite Hm.
  unfold bind, decodeURIComponent_call. by rewrite Hd.
Qed.

Lemma spawn_args_nul dest :
  existsb has_nul (js "ffmpeg" :: ffmpeg_args dest) = has_nul dest.
Proof.
  change (js "ffmpeg" :: ffmpeg_args dest)
    with ((js "ffmpeg" :: removelast (ffmpeg_args [])) ++ [dest]).
  rewrite existsb_app. simpl existsb at 2. rewrite orb_false_r.
  by replace (existsb has_nul (js "ffmpeg" :: removelast (ffmpeg_args [])))
    with false by reflexivity.
Qed.

Lemma deliver_connection_nul s url m1 dest :
  url_match url = Some m1 ->
  decodeURIComponent m1 = Some dest ->
  has_nul dest = true ->
  deliver (Connection url) s =
  Throw (Err (js "TypeError") (js "ERR_INVALID_ARG_VALUE"))
        {| sockets := sockets s ++ [ {| readyState := OPEN; ws_events := [] |} ];
           children := children s;
           trace := trace s ++
             [ Log [Arg (Str (js "Target RTMP URL:")); Arg (Str dest)] ];
           uncaught := uncaught s |}.
Proof.
  intros Hm Hd Hn. unfold deliver, bind, accept_socket, on_connection. rewrite Hm.
  unfold bind, decodeURIComponent_call. rewrite Hd.
  unfold ret, console_log, do_action, child_process_spawn.
  by rewrite spawn_args_nul, Hn.
Qed.

Lemma deliver_connection_accept s url m1 dest :
  url_match url = Some m1 ->
  decodeURIComponent m1 = Some dest ->
  has_nul dest = false ->
  deliver (Connection url) s =
  Normal tt
    {| sockets := sockets s ++
         [ {| readyState := OPEN;
              ws_events := session_ws_events (length (children s)) |} ];
       children := children s ++ [session_child (length (sockets s)) dest];
       trace := trace s ++
         [ Log [Arg (Str (js "Target RTMP URL:")); Arg (Str dest)];
           Spawn (length (children s)) (js "ffmpeg") (ffmpeg_args dest) ];
       uncaught := uncaught s |}.
Proof.
  intros Hm Hd Hn. unfold deliver, bind, accept_socket, on_connection. rewrite Hm.
  unfold bind, decodeURIComponent_call. rewrite Hd.
  unfold ret, console_log, do_action, child_process_spawn.
  rewrite spawn_args_nul, Hn.
  unfold child_on, stdin_on, stderr_on, ws_on, update_child, update_socket.
  simpl. rewrite !alter_snoc. simpl. rewrite <- !app_assoc. reflexivity.
Qed.

Section StepEquations.

Variable s : server.
Hypothesis Hrun : uncaught s = None.

Lemma step_connection_reject url :
  url_match url = None ->
  step (Connection url) s =
  {| sockets := sockets s ++ [ {| readyState := CLOSING; ws_events := [] |} ];
     children := children s;
     trace := trace s ++ [Terminate (length (sockets s))];
     uncaught := None |}.
Proof.
  intros Hm. unfold step.
  rewrite Hrun, (deliver_connection_reject _ _ Hm). by rewrite Hrun.
Qed.

Lemma step_connection_malformed url m1 :
  url_match url = Some m1 ->
  decodeURIComponent m1 = None ->
  step (Connection url) s =
  {| sockets := sockets s ++ [ {| readyState := OPEN; ws_events := [] |} ];
     children := children s; trace := trace s;
     uncaught := Some (Err (js "URIError") (js "URI malformed")) |}.
Proof.
  intros Hm Hd. unfold step.
  by rewrite Hrun, (deliver_connection_malformed _ _ _ Hm Hd).
Qed.

Lemma step_connection_nul url m1 dest :
  url_match url = Some m1 ->
  decodeURIComponent m1 = Some dest ->
  has_nul dest = true ->
  step (Connection url) s =
  {| sockets := sockets s ++ [ {| readyState := OPEN; ws_events := [] |} ];
     children := children s;
     trace := trace s ++
       [ Log [Arg (Str (js "Target RTMP URL:")); Arg (Str dest)] ];
     uncaught := Some (Err (js "TypeError") (js "ERR_INVALID_ARG_VALUE")) |}.
Proof.
  intros Hm Hd Hn. unfold step.
  by rewrite Hrun, (deliver_connection_nul _ _ _ _ Hm Hd Hn).
Qed.

Lemma step_connection_accept url m1 dest :
  url_match url = Some m1 ->
  decodeURIComponent m1 = Some dest ->
  has_nul dest = false ->
  step (Connection url) s =
  {| sockets := sockets s ++
       [ {| readyState := OPEN;
            ws_events := session_ws_events (length (children s)) |} ];
     children := children s ++ [session_child (length (sockets s)) dest];
     trace := trace s ++
       [ Log [Arg (Str (js "Target RTMP URL:")); Arg (Str dest)];
         Spawn (length (children s)) (js "ffmpeg") (ffmpeg_args dest) ];
     uncaught := None |}.
Proof.
  intros Hm Hd Hn. unfold step.
  rewrite Hrun, (deliver_connection_accept _ _ _ _ Hm Hd Hn). by rewrite Hrun.
Qed.

Lemma step_ws_message ws x p chunk :
  sockets s !! ws = Some x ->
  ws_events x = session_ws_events p ->
  step (WsMessage ws chunk) s =
  {| sockets := sockets s; children := children s;
     trace := trace s ++
       [ Log [Arg (Str (js "DATA")); Arg (Buf chunk)]; Write p (Buf chunk) ];
     uncaught := None |}.
Proof.
  intros Hx Hev. unfold step. rewrite Hrun.
  unfold deliver, emit_on. rewrite Hx, Hev. simpl.
  unfold bind, console_log, stdin_write, do_action, arg. simpl.
  by rewrite Hrun, <- app_assoc.
Qed.

Lemma step_ws_close ws x p code :
  sockets s !! ws = Some x ->
  ws_events x = session_ws_events p ->
  step (WsClose ws code) s =
  {| sockets := alter closed ws (sockets s); children := children s;
     trace := trace s ++ [Kill p (js "SIGINT")];
     uncaught := None |}.
Proof.
  intros Hx Hev. unfold step. rewrite Hrun.
  unfold deliver, emit_on, bind, update_socket. simpl.
  rewrite list_lookup_alter_eq, Hx. simpl. rewrite Hev. simpl.
  by rewrite Hrun.
Qed.

Lemma step_child_close p c ws code signal :
  children s !! p = Some c ->
  child_events c = [("close"%string, ffmpeg_on_close ws)] ->
  step (ChildClose p code signal) s =
  {| sockets := alter terminated ws (sockets s);
     children := alter ended p (children s);
     trace := trace s ++
       [ Log [Plus [Str (js "FFmpeg child process closed, code ");
                    nullable Num code; Str (js ", signal ");
                    nullable Str signal]];
         Terminate ws ];
     uncaught := None |}.
Proof.
  intros Hc Hev. unfold step. rewrite Hrun.
  unfold deliver, emit_on, bind, update_child. simpl.
  rewrite list_lookup_alter_eq, Hc. simpl. rewrite Hev. simpl.
  unfold bind, console_log, ws_terminate, bind, update_socket, do_action, arg.
  simpl. by rewrite Hrun, <- app_assoc.
Qed.

Lemma step_child_error p c message :
  children s !! p = Some c ->
  listeners (child_events c) "error" = [] ->
  step (ChildError p message) s =
  {| sockets := sockets s; children := children s; trace := trace s;
     uncaught := Some (Err (js "Error") message) |}.
Proof.
  intros Hc Hev. unfold step. rewrite Hrun.
  unfold deliver, emit_on. rewrite Hc. unfold emit. by rewrite Hev.
Qed.

Lemma step_stdin_error p c message :
  children s !! p = Some c ->
  stdin_events c = [("error"%string, stdin_on_error)] ->
  step (StdinError p message) s =
  {| sockets := sockets s; children := children s;
     trace := trace s ++
       [ Log [Arg (Str (js "FFmpeg STDIN Error")); Arg (Err (js "Error") message)] ];
     uncaught := None |}.
Proof.
  intros Hc Hev. unfold step. rewrite Hrun.
  unfold deliver, emit_on. rewrite Hc, Hev. simpl.
  unfold bind, console_log, do_action, arg. simpl. by rewrite Hrun.
Qed.

Lemma step_stderr_data p c chunk :
  children s !! p = Some c ->
  stderr_events c = [("data"%string, stderr_on_data)] ->
  step (StderrData p chunk) s =
  {| sockets := sockets s; children := children s;
     trace := trace s ++
       [ Log [Arg (Str (js "FFmpeg STDERR:")); ToString (Buf chunk)] ];
     uncaught := None |}.
Proof.
  intros Hc Hev. unfold step. rewrite Hrun.
  unfold deliver, emit_on. rewrite Hc, Hev. simpl.
  unfold bind, console_log, do_action, arg. simpl. by rewrite Hrun.
Qed.

Lemma step_stdout_data p c chunk :
  children s !! p = Some c ->
  stdout_events c = [] ->
  step (StdoutData p chunk) s = s.
Proof.
  intros Hc Hev. unfold step. rewrite Hrun.
  unfold deliver, emit_on. by rewrite Hc, Hev.
Qed.

Lemma step_ws_error ws x message :
  sockets s !! ws = Some x ->
  listeners (ws_events x) "error" = [] ->
  step (WsError ws message) s =
  {| sockets := sockets s; children := children s; trace := trace s;
     uncaught := Some (Err (js "Error") message) |}.
Proof.
  intros Hx Hev. unfold step. rewrite Hrun.
  unfold deliver, emit_on. rewrite Hx. unfold emit. by rewrite Hev.
Qed.

Lemma step_ws_error_absent ws message :
  sockets s !! ws = None -> step (WsError ws message) s = s.
Proof.
  intros Hx. unfold step. rewrite Hrun. unfold deliver, emit_on. by rewrite Hx.
Qed.

Lemma step_stdout_error p c message :
  children s !! p = Some c ->
  listeners (stdout_events c) "error" = [] ->
  step (StdoutError p message) s =
  {| sockets := sockets s; children := children s; trace := trace s;
     uncaught := Some (Err (js "Error") message) |}.
Proof.
  intros Hc Hev. unfold step. rewrite Hrun.
  unfold deliver, emit_on. rewrite Hc. unfold emit. by rewrite Hev.
Qed.

Lemma step_stderr_error p c message :
  children s !! p = Some c ->
  listeners (stderr_events c) "error" = [] ->
  step (StderrError p message) s =
  {| sockets := sockets s; children := children s; trace := trace s;
     uncaught := Some (Err (js "Error") message) |}.
Proof.
  intros Hc Hev. unfold step. rewrite Hrun.
  unfold deliver, emit_on. rewrite Hc. unfold emit. by rewrite Hev.
Qed.

(** Events on a socket without listeners, or on an object that does not
    exist, run no code of the server. *)
Lemma step_ws_message_idle ws chunk :
  (forall x, sockets s !! ws = Some x -> ws_events x = []) ->
  step (WsMessage ws chunk) s = s.
Proof.
  intros Hx. unfold step. rewrite Hrun. unfold deliver, emit_on.
  destruct (sockets s !! ws) as [x|] eqn:E; [|done].
  by rewrite (Hx x eq_refl).
Qed.

Lemma step_ws_close_idle ws code :
  (forall x, sockets s !! ws = Some x -> ws_events x = []) ->
  step (WsClose ws code) s =
  {| sockets := alter closed ws (sockets s); children := children s;
     trace := trace s; uncaught := None |}.
Proof.
  intros Hx. unfold step. rewrite Hrun.
  unfold deliver, emit_on, bind, update_socket. simpl.
  rewrite list_lookup_alter_eq.
  destruct (sockets s !! ws) as [x|] eqn:E; simpl.
  - by rewrite (Hx x eq_refl), Hrun.
  - by rewrite Hrun.
Qed.

Lemma step_child_absent ev p :
  children s !! p = None ->
  match ev with
  | ChildClose q _ _ | ChildError q _ | StdinError q _
  | StdoutData q _ | StderrData q _
  | StdoutError q _ | StderrError q _ => q = p
  | _ => False
  end ->
  step ev s = s.
Proof.
  intros Hc Hev. unfold step. rewrite Hrun.
  destruct ev; try done; subst; unfold deliver, emit_on, bind, update_child;
    simpl; rewrite ?list_lookup_alter_eq, ?Hc; simpl; try done.
  rewrite alter_absent by done. destruct s; simpl in *. by subst.
Qed.

End StepEquations.

(** ** The shape of reachable states *)

Section Invariant.

Lemma lookup_alter_inv {A} (f : A -> A) (l : list A) (i j : nat) (y : A) :
  alter f i l !! j = Some y ->
  exists x, l !! j = Some x /\ ((i <> j /\ y = x) \/ (i = j /\ y = f x)).
Proof.
  rewrite list_lookup_alter. case_decide; subst.
  - destruct (l !! j) as [x|]; simpl; [|done].
    intros [= <-]. eauto.
  - eauto.
Qed.

Lemma lookup_alter_keep {A B} (f : A -> A) (g : A -> B) (l : list A)
    (i j : nat) (x : A) :
  (forall a, g (f a) = g a) ->
  l !! j = Some x ->
  exists y, alter f i l !! j = Some y /\ g y = g x /\ (y = x \/ (i = j /\ y = f x)).
Proof.
  intros Hg Hx. rewrite list_lookup_alter. case_decide; subst.
  - rewrite Hx. simpl. exists (f x). split_and!; auto.
  - exists x. split_and!; auto.
Qed.

Lemma child_close_events_inj ws ws' :
  child_close_events ws = child_close_events ws' -> ws = ws'.
Proof. by intros [= ->]. Qed.

Lemma session_ws_events_inj p p' :
  session_ws_events p = session_ws_events p' -> p = p'.
Proof. by intros [= ->]. Qed.

Lemma wf_init : wf init.
Proof. split; simpl; intros *; by rewrite ?lookup_nil. Qed.

Lemma terminated_events x : ws_events (terminated x) = ws_events x.
Proof. unfold terminated. by destruct (readyState x). Qed.

Lemma terminated_not_open x : readyState (terminated x) <> OPEN.
Proof. unfold terminated. by destruct (readyState x) eqn:E; simpl; rewrite ?E. Qed.

Lemma terminated_closed x :
  readyState (terminated x) = CLOSED -> readyState x = CLOSED.
Proof. unfold terminated. by destruct (readyState x) eqn:E; simpl; rewrite ?E. Qed.

Lemma wf_step ev s : wf s -> wf (step ev s).
Proof.
  intros [Hws Hch Hex Hcl].
  destruct (uncaught s) as [e|] eqn:Hrun.
  { unfold step. rewrite Hrun. by split. }
  destruct ev as [url|ws chunk|ws code|p code signal|p msg|p msg|p chunk|p chunk
                 |ws msg|p msg|p msg].
  - (* Connection *)
    destruct (url_match url) as [m1|] eqn:Hm;
      [destruct (decodeURIComponent m1) as [dest|] eqn:Hd;
       [destruct (has_nul dest) eqn:Hn|]|].
    + rewrite (step_connection_nul s Hrun url m1 dest Hm Hd Hn).
      split; simpl.
      * intros ws x [[Hlt Hx]|[-> <-]]%lookup_snoc_Some; [by eauto|by left].
      * intros p c Hc.
        destruct (Hch p c Hc) as (? & ? & ? & ws & x & ? & Hx & ?).
        split_and!; try done. exists ws, x. split_and!; try done.
        by apply lookup_app_l_Some.
      * intros p c ws x Hc He Hev [[Hlt' Hx]|[-> <-]]%lookup_snoc_Some;
          [by eauto|].
        destruct (Hch p c Hc) as (_ & _ & _ & ws & x & Hev' & Hx & _).
        rewrite Hev in Hev'. apply child_close_events_inj in Hev'.
        apply lookup_lt_Some in Hx. lia.
      * intros ws x p [[Hlt Hx]|[-> <-]]%lookup_snoc_Some; [|done].
        intros. apply in_or_app. left. eauto.
    + rewrite (step_connection_accept s Hrun url m1 dest Hm Hd Hn).
      split; simpl.
      * intros ws x [[Hlt Hx]|[-> <-]]%lookup_snoc_Some.
        -- destruct (Hws ws x Hx) as [?|(p & c & ? & Hc & ?)]; [by left|].
           right. exists p, c. split_and!; try done.
           by apply lookup_app_l_Some.
        -- right. exists (length (children s)), (session_child (length (sockets s)) dest).
           split_and!; [done| |done]. by rewrite list_lookup_middle.
      * intros p c [[Hlt Hc]|[-> <-]]%lookup_snoc_Some.
        -- destruct (Hch p c Hc) as (? & ? & ? & ws & x & ? & Hx & ?).
           split_and!; try done. exists ws, x. split_and!; try done.
           by apply lookup_app_l_Some.
        -- split_and!; try done.
           exists (length (sockets s)), (mkWebSocket OPEN (session_ws_events (length (children s)))).
           split_and!; [done| |done]. by rewrite list_lookup_middle.
      * intros p c ws x [[Hlt Hc]|[-> <-]]%lookup_snoc_Some; [|done].
        intros He Hev [[Hlt' Hx]|[-> <-]]%lookup_snoc_Some; [by eauto|].
        destruct (Hch p c Hc) as (_ & _ & _ & ws & x & Hev' & Hx & _).
        rewrite Hev in Hev'. apply child_close_events_inj in Hev'.
        apply lookup_lt_Some in Hx. lia.
      * intros ws x p [[Hlt Hx]|[-> <-]]%lookup_snoc_Some; [|done].
        intros. apply in_or_app. left. eauto.
    + rewrite (step_connection_malformed s Hrun url m1 Hm Hd).
      split; simpl.
      * intros ws x [[Hlt Hx]|[-> <-]]%lookup_snoc_Some; [by eauto|by left].
      * intros p c Hc.
        destruct (Hch p c Hc) as (? & ? & ? & ws & x & ? & Hx & ?).
        split_and!; try done. exists ws, x. split_and!; try done.
        by apply lookup_app_l_Some.
      * intros p c ws x Hc He Hev [[Hlt' Hx]|[-> <-]]%lookup_snoc_Some;
          [by eauto|].
        destruct (Hch p c Hc) as (_ & _ & _ & ws & x & Hev' & Hx & _).
        rewrite Hev in Hev'. apply child_close_events_inj in Hev'.
        apply lookup_lt_Some in Hx. lia.
      * intros ws x p [[Hlt Hx]|[-> <-]]%lookup_snoc_Some; [by eauto|done].
    + rewrite (step_connection_reject s Hrun url Hm).
      split; simpl.
      * intros ws x [[Hlt Hx]|[-> <-]]%lookup_snoc_Some; [by eauto|by left].
      * intros p c Hc.
        destruct (Hch p c Hc) as (? & ? & ? & ws & x & ? & Hx & ?).
        split_and!; try done. exists ws, x. split_and!; try done.
        by apply lookup_app_l_Some.
      * intros p c ws x Hc He Hev [[Hlt' Hx]|[-> <-]]%lookup_snoc_Some;
          [by eauto|done].
      * intros ws x p [[Hlt Hx]|[-> <-]]%lookup_snoc_Some; [|done].
        intros. apply in_or_app. left. eauto.
  - (* WsMessage *)
    destruct (sockets s !! ws) as [x|] eqn:Hx.
    + destruct (Hws ws x Hx) as [Hev|(p & c & Hev & Hc & Hcev)].
      * rewrite step_ws_message_idle; [by split|done|].
        intros x' Hx'. by simplify_eq.
      * rewrite (step_ws_message s Hrun ws x p chunk Hx Hev).
        split; simpl; try done.
        intros. apply in_or_app. left. eauto.
    + rewrite step_ws_message_idle; [by split|done|]. intros x' Hx'. by simplify_eq.
  - (* WsClose *)
    assert (Hstep : exists t, step (WsClose ws code) s =
              {| sockets := alter closed ws (sockets s); children := children s;
                 trace := trace s ++ t; uncaught := None |} /\
              forall x p, sockets s !! ws = Some x ->
                          ws_events x = session_ws_events p ->
                          In (Kill p (js "SIGINT")) t).
    { destruct (sockets s !! ws) as [x|] eqn:Hx.
      - destruct (Hws ws x Hx) as [Hev|(p & c & Hev & Hc & Hcev)].
        + exists []. rewrite step_ws_close_idle, app_nil_r; [|done|].
          * split; [done|]. intros x' p' [= <-]. by rewrite Hev.
          * intros x' Hx'. by simplify_eq.
        + exists [Kill p (js "SIGINT")].
          rewrite (step_ws_close s Hrun ws x p code Hx Hev). split; [done|].
          intros x' p' [= <-]. rewrite Hev.
          intros ->%session_ws_events_inj. by left.
      - exists []. rewrite step_ws_close_idle, app_nil_r; [|done|by intros x'; rewrite Hx].
        split; [done|]. intros x p Hx'. by simplify_eq. }
    destruct Hstep as (t & -> & Ht). split; simpl.
    + intros w y (x & Hx & Hy)%lookup_alter_inv.
      assert (ws_events y = ws_events x) as -> by (by destruct Hy as [[_ ->]|[_ ->]]).
      eauto.
    + intros p c Hc.
      destruct (Hch p c Hc) as (? & ? & ? & w & x & ? & Hx & Hev).
      split_and!; try done.
      destruct (lookup_alter_keep closed ws_events (sockets s) ws w x)
        as (y & Hy & Hyev & _); [done..|].
      exists w, y. split_and!; congruence.
    + intros p c w y Hc He Hev (x & Hx & [[_ ->]|[_ ->]])%lookup_alter_inv;
        [by eauto|done].
    + intros w y p (x & Hx & [[_ ->]|[-> ->]])%lookup_alter_inv Hst Hev.
      * apply in_or_app. left. eauto.
      * apply in_or_app. right. eauto.
  - (* ChildClose *)
    destruct (children s !! p) as [c|] eqn:Hc;
      [|rewrite (step_child_absent s Hrun (ChildClose p code signal) p); [by split|done|done]].
    destruct (Hch p c Hc) as (_ & _ & _ & ws & x & Hcev & Hx & Hxev).
    rewrite (step_child_close s Hrun p c ws code signal Hc Hcev).
    split; simpl.
    + intros w y (x0 & Hx0 & Hy)%lookup_alter_inv.
      assert (ws_events y = ws_events x0) as ->
        by (destruct Hy as [[_ ->]|[_ ->]]; by rewrite ?terminated_events).
      destruct (Hws w x0 Hx0) as [?|(q & c0 & ? & Hc0 & ?)]; [by left|].
      right.
      destruct (lookup_alter_keep ended child_events (children s) p q c0)
        as (c1 & Hc1 & Hc1ev & _); [done..|].
      exists q, c1. split_and!; congruence.
    + intros q c1 (c0 & Hc0 & Hc1)%lookup_alter_inv.
      destruct (Hch q c0 Hc0) as (? & ? & ? & w & x0 & ? & Hx0 & Hev).
      destruct (lookup_alter_keep terminated ws_events (sockets s) ws w x0)
        as (y & Hy & Hyev & _); [apply terminated_events|done|].
      destruct Hc1 as [[_ ->]|[_ ->]]; simpl; split_and!; try done;
        exists w, y; split_and!; congruence.
    + intros q c1 w y (c0 & Hc0 & Hc1)%lookup_alter_inv He Hev
        (x0 & Hx0 & [[Hne ->]|[_ ->]])%lookup_alter_inv;
        [|apply terminated_not_open].
      destruct Hc1 as [[_ ->]|[-> ->]]; [by eauto|].
      simpl in Hev. simplify_eq. rewrite Hcev in Hev.
      by apply child_close_events_inj in Hev.
    + intros w y q (x0 & Hx0 & Hy)%lookup_alter_inv Hst Hev.
      apply in_or_app. left. apply (Hcl w x0).
      * done.
      * destruct Hy as [[_ ->]|[_ ->]]; [done|by apply terminated_closed].
      * destruct Hy as [[_ ->]|[_ ->]]; by rewrite ?terminated_events in Hev.
  - (* ChildError *)
    destruct (children s !! p) as [c|] eqn:Hc;
      [|rewrite (step_child_absent s Hrun (ChildError p msg) p); [by split|done|done]].
    destruct (Hch p c Hc) as (_ & _ & _ & ws & x & Hcev & _).
    rewrite (step_child_error s Hrun p c msg Hc); [by split|].
    by rewrite Hcev.
  - (* StdinError *)
    destruct (children s !! p) as [c|] eqn:Hc;
      [|rewrite (step_child_absent s Hrun (StdinError p msg) p); [by split|done|done]].
    destruct (Hch p c Hc) as (Hin & _).
    rewrite (step_stdin_error s Hrun p c msg Hc Hin).
    split; simpl; try done. intros. apply in_or_app. left. eauto.
  - (* StdoutData *)
    destruct (children s !! p) as [c|] eqn:Hc;
      [|rewrite (step_child_absent s Hrun (StdoutData p chunk) p); [by split|done|done]].
    destruct (Hch p c Hc) as (_ & Hout & _).
    rewrite (step_stdout_data s Hrun p c chunk Hc Hout). by split.
  - (* StderrData *)
    destruct (children s !! p) as [c|] eqn:Hc;
      [|rewrite (step_child_absent s Hrun (StderrData p chunk) p); [by split|done|done]].
    destruct (Hch p c Hc) as (_ & _ & Herr & _).
    rewrite (step_stderr_data s Hrun p c chunk Hc Herr).
    split; simpl; try done. intros. apply in_or_app. left. eauto.
- (* WsError *)
  destruct (sockets s !! ws) as [x|] eqn:Hx;
    [|rewrite (step_ws_error_absent s Hrun ws msg Hx); by split].
  rewrite (step_ws_error s Hrun ws x msg Hx); [by split|].
  destruct (Hws ws x Hx) as [->|(p & c & -> & _)]; done.
- (* StdoutError *)
  destruct (children s !! p) as [c|] eqn:Hc;
    [|rewrite (step_child_absent s Hrun (StdoutError p msg) p); [by split|done|done]].
  destruct (Hch p c Hc) as (_ & Hout & _).
  rewrite (step_stdout_error s Hrun p c msg Hc); [by split|by rewrite Hout].
- (* StderrError *)
  destruct (children s !! p) as [c|] eqn:Hc;
    [|rewrite (step_child_absent s Hrun (StderrError p msg) p); [by split|done|done]].
  destruct (Hch p c Hc) as (_ & _ & Herr & _).
  rewrite (step_stderr_error s Hrun p c msg Hc); [by split|by rewrite Herr].
Qed.

End Invariant.

Lemma wf_run evs s : wf s -> wf (run evs s).
Proof.
  revert s. induction evs as [|ev evs IH]; intros s Hs; simpl; [done|].
  apply IH. by apply wf_step.
Qed.

Lemma reachable_wf s : reachable s -> wf s.
Proof. intros [evs <-]. apply wf_run, wf_init. Qed.

Lemma reachable_step ev s : reachable s -> reachable (step ev s).
Proof.
  intros [evs <-]. exists (evs ++ [ev]). unfold run. by rewrite fold_left_app.
Qed.

Lemma reachable_run evs s : reachable s -> reachable (run evs s).
Proof.
  intros [evs0 <-]. exists (evs0 ++ evs). unfold run. by rewrite fold_left_app.
Qed.

Lemma step_crashed ev s e : uncaught s = Some e -> step ev s = s.
Proof. intros H. unfold step. by rewrite H. Qed.

Lemma run_crashed evs s e : uncaught s = Some e -> run evs s = s.
Proof.
  induction evs as [|ev evs IH]; intros H; simpl; [done|].
  by rewrite (step_crashed _ _ _ H), IH.
Qed.

Lemma run_cons ev evs s : run (ev :: evs) s = run evs (step ev s).
Proof. done. Qed.

(** A run that ends without an uncaught exception never had one. *)
Lemma run_running evs s :
  uncaught (run evs s) = None -> uncaught s = None.
Proof.
  intros H. destruct (uncaught s) as [e|] eqn:E; [|done].
  by rewrite (run_crashed _ _ _ E), E in H.
Qed.

Lemma step_view_intro ev s :
  wf s -> uncaught s = None -> step_view s ev (step ev s).
Proof.
  intros [Hws Hch _ _] Hrun.
  destruct ev as [url|ws chunk|ws code|p code signal|p msg|p msg|p chunk|p chunk
                 |ws msg|p msg|p msg].
  - destruct (url_match url) as [m1|] eqn:Hm;
      [destruct (decodeURIComponent m1) as [dest|] eqn:Hd;
       [destruct (has_nul dest) eqn:Hn|]|].
    + rewrite (step_connection_nul s Hrun url m1 dest Hm Hd Hn).
      by eapply view_spawn_throws.
    + rewrite (step_connection_accept s Hrun url m1 dest Hm Hd Hn).
      by eapply view_accept.
    + rewrite (step_connection_malformed s Hrun url m1 Hm Hd).
      by eapply view_malformed.
    + rewrite (step_connection_reject s Hrun url Hm). by apply view_reject.
  - destruct (sockets s !! ws) as [x|] eqn:Hx;
      [destruct (Hws ws x Hx) as [Hev|(p & c & Hev & Hc & Hcev)]|].
    + rewrite step_ws_message_idle; [|done|intros x0 Hx0; by simplify_eq].
      apply view_idle. simpl. intros x0 Hx0. by simplify_eq.
    + rewrite (step_ws_message s Hrun ws x p chunk Hx Hev).
      by eapply view_message.
    + rewrite step_ws_message_idle; [|done|intros x0 Hx0; by simplify_eq].
      apply view_idle. simpl. intros x0 Hx0. by simplify_eq.
  - destruct (sockets s !! ws) as [x|] eqn:Hx;
      [destruct (Hws ws x Hx) as [Hev|(p & c & Hev & Hc & Hcev)]|].
    + rewrite step_ws_close_idle; [|done|intros x0 Hx0; by simplify_eq].
      apply view_ws_close_idle. intros x0 Hx0. by simplify_eq.
    + rewrite (step_ws_close s Hrun ws x p code Hx Hev).
      by eapply view_ws_close.
    + rewrite step_ws_close_idle; [|done|intros x0 Hx0; by simplify_eq].
      apply view_ws_close_idle. intros x0 Hx0. by simplify_eq.
  - destruct (children s !! p) as [c|] eqn:Hc.
    + destruct (Hch p c Hc) as (_ & _ & _ & ws & x & Hcev & Hx & Hxev).
      rewrite (step_child_close s Hrun p c ws code signal Hc Hcev).
      by eapply view_child_close.
    + rewrite (step_child_absent s Hrun (ChildClose p code signal) p); [|done..].
      by apply view_idle.
  - destruct (children s !! p) as [c|] eqn:Hc.
    + destruct (Hch p c Hc) as (_ & _ & _ & ws & x & Hcev & _).
      rewrite (step_child_error s Hrun p c msg Hc); [|by rewrite Hcev].
      by eapply view_child_error.
    + rewrite (step_child_absent s Hrun (ChildError p msg) p); [|done..].
      by apply view_idle.
  - destruct (children s !! p) as [c|] eqn:Hc.
    + destruct (Hch p c Hc) as (Hin & _).
      rewrite (step_stdin_error s Hrun p c msg Hc Hin).
      by eapply view_stdin_error.
    + rewrite (step_child_absent s Hrun (StdinError p msg) p); [|done..].
      by apply view_idle.
  - destruct (children s !! p) as [c|] eqn:Hc.
    + destruct (Hch p c Hc) as (_ & Hout & _).
      rewrite (step_stdout_data s Hrun p c chunk Hc Hout). by apply view_idle.
    + rewrite (step_child_absent s Hrun (StdoutData p chunk) p); [|done..].
      by apply view_idle.
  - destruct (children s !! p) as [c|] eqn:Hc.
    + destruct (Hch p c Hc) as (_ & _ & Herr & _).
      rewrite (step_stderr_data s Hrun p c chunk Hc Herr).
      by eapply view_stderr_data.
    + rewrite (step_child_absent s Hrun (StderrData p chunk) p); [|done..].
      by apply view_idle.
  - destruct (sockets s !! ws) as [x|] eqn:Hx.
    + rewrite (step_ws_error s Hrun ws x msg Hx); [by eapply view_ws_error|].
      destruct (Hws ws x Hx) as [->|(p & c & -> & _)]; done.
    + rewrite (step_ws_error_absent s Hrun ws msg Hx). by apply view_idle.
  - destruct (children s !! p) as [c|] eqn:Hc.
    + destruct (Hch p c Hc) as (_ & Hout & _).
      rewrite (step_stdout_error s Hrun p c msg Hc); [|by rewrite Hout].
      by eapply view_stdout_error.
    + rewrite (step_child_absent s Hrun (StdoutError p msg) p); [|done..].
      by apply view_idle.
  - destruct (children s !! p) as [c|] eqn:Hc.
    + destruct (Hch p c Hc) as (_ & _ & Herr & _).
      rewrite (step_stderr_error s Hrun p c msg Hc); [|by rewrite Herr].
      by eapply view_stderr_error.
    + rewrite (step_child_absent s Hrun (StderrError p msg) p); [|done..].
      by apply view_idle.
Qed.

(** ** Sessions persist, and only their own socket feeds their child *)

Lemma session_child_events s ws p :
  wf s -> session s ws p ->
  exists c, children s !! p = Some c /\ child_events c = child_close_events ws.
Proof.
  intros Hwf (x & Hx & Hev).
  destruct (wf_socket s Hwf ws x Hx) as [E|(q & c & E & Hc & Hcev)].
  - by rewrite Hev in E.
  - rewrite Hev in E. apply session_ws_events_inj in E. subst q. eauto.
Qed.

Lemma session_unique_socket s ws ws' p :
  wf s -> session s ws p -> session s ws' p -> ws = ws'.
Proof.
  intros Hwf H1 H2.
  destruct (session_child_events s ws p Hwf H1) as (c & Hc & Hev).
  destruct (session_child_events s ws' p Hwf H2) as (c' & Hc' & Hev').
  simplify_eq. rewrite Hev in Hev'. by apply child_close_events_inj.
Qed.

Lemma session_unique_child s ws p p' :
  session s ws p -> session s ws p' -> p = p'.
Proof.
  intros (x & Hx & Hev) (x' & Hx' & Hev'). simplify_eq.
  rewrite Hev in Hev'. by apply session_ws_events_inj.
Qed.

Lemma step_keeps_session ev s ws p :
  wf s -> session s ws p -> session (step ev s) ws p.
Proof.
  intros Hwf Hs. destruct (uncaught s) as [e|] eqn:Hrun.
  { by rewrite (step_crashed _ _ _ Hrun). }
  pose proof (step_view_intro ev s Hwf Hrun) as Hv.
  remember (step ev s) as s' eqn:Es. clear Es.
  destruct Hs as (x & Hx & Hev).
  destruct Hv; unfold session; simpl; eauto using lookup_app_l_Some.
  - destruct (lookup_alter_keep closed ws_events (sockets s) ws0 ws x)
      as (y & Hy & Hyev & _); [done..|].
    exists y. split; congruence.
  - destruct (lookup_alter_keep closed ws_events (sockets s) ws0 ws x)
      as (y & Hy & Hyev & _); [done..|].
    exists y. split; congruence.
  - destruct (lookup_alter_keep terminated ws_events (sockets s) ws0 ws x)
      as (y & Hy & Hyev & _); [apply terminated_events|done|].
    exists y. split; congruence.
Qed.

Lemma run_keeps_session evs s ws p :
  wf s -> session s ws p -> session (run evs s) ws p.
Proof.
  revert s. induction evs as [|ev evs IH]; intros s Hwf Hs; simpl; [done|].
  apply IH; [by apply wf_step|by apply step_keeps_session].
Qed.

Lemma writes_to_app p t t' :
  writes_to p (t ++ t') = writes_to p t ++ writes_to p t'.
Proof. unfold writes_to. by rewrite flat_map_app. Qed.

Lemma step_writes ev s ws p :
  wf s -> uncaught s = None -> session s ws p ->
  writes_to p (trace (step ev s)) = writes_to p (trace s) ++ messages_on ws [ev].
Proof.
  intros Hwf Hrun Hs.
  pose proof (step_view_intro ev s Hwf Hrun) as Hv.
  remember (step ev s) as s' eqn:Es. clear Es.
  destruct Hv; simpl; rewrite ?writes_to_app; simpl; rewrite ?app_nil_r;
    try done.
  - (* a message on a session socket *)
    destruct (Nat.eqb_spec ws0 ws) as [->|Hne].
    + assert (p0 = p) as -> by (eapply session_unique_child; [exists x|]; eauto).
      by rewrite Nat.eqb_refl.
    + destruct (Nat.eqb_spec p0 p) as [->|]; [|by rewrite app_nil_r].
      destruct Hne. eapply session_unique_socket; [done|exists x; eauto|done].
  - (* an event without listeners *)
    destruct ev; simpl in *; rewrite ?app_nil_r; try done.
    destruct (Nat.eqb_spec ws0 ws) as [->|]; [|by rewrite app_nil_r].
    destruct Hs as (x & Hx & Hev). rewrite (H x Hx) in Hev. done.
Qed.

Lemma messages_on_cons ws ev evs :
  messages_on ws (ev :: evs) = messages_on ws [ev] ++ messages_on ws evs.
Proof. unfold messages_on. simpl. by rewrite app_nil_r. Qed.

Lemma run_writes evs s ws p :
  wf s -> session s ws p -> uncaught (run evs s) = None ->
  writes_to p (trace (run evs s)) = writes_to p (trace s) ++ messages_on ws evs.
Proof.
  revert s. induction evs as [|ev evs IH]; intros s Hwf Hs Hend.
  - simpl. by rewrite app_nil_r.
  - rewrite run_cons in *.
    assert (uncaught s = None) as Hrun.
    { apply run_running in Hend. destruct (uncaught s) eqn:E; [|done].
      by rewrite (step_crashed _ _ _ E), E in Hend. }
    rewrite IH; [|by apply wf_step|by apply step_keeps_session|done].
    rewrite (step_writes ev s ws p Hwf Hrun Hs), (messages_on_cons ws ev evs).
    symmetry. apply app_assoc.
Qed.

(** Writes only go to children that exist, so a child that is spawned later
    starts with no write. *)
Lemma step_writes_bounded ev s :
  wf s ->
  (forall q v, In (Write q v) (trace s) -> (q < length (children s))%nat) ->
  forall q v, In (Write q v) (trace (step ev s)) ->
              (q < length (children (step ev s)))%nat.
Proof.
  intros Hwf Hb. destruct (uncaught s) as [e|] eqn:Hrun.
  { by rewrite (step_crashed _ _ _ Hrun). }
  pose proof (step_view_intro ev s Hwf Hrun) as Hv.
  remember (step ev s) as s' eqn:Es. clear Es.
  destruct Hv; simpl; intros q v Hin; rewrite ?length_app, ?length_alter;
    try apply in_app_or in Hin as [Hin|Hin]; simpl in *;
    try (specialize (Hb q v Hin); lia);
    repeat (destruct Hin as [Hin|Hin]; try done).
  injection Hin as <- <-. by eapply lookup_lt_Some.
Qed.

Lemma run_writes_bounded evs s :
  wf s ->
  (forall q v, In (Write q v) (trace s) -> (q < length (children s))%nat) ->
  forall q v, In (Write q v) (trace (run evs s)) ->
              (q < length (children (run evs s)))%nat.
Proof.
  revert s. induction evs as [|ev evs IH]; intros s Hwf Hb; [done|].
  rewrite run_cons. apply IH; [by apply wf_step|by apply step_writes_bounded].
Qed.

Lemma writes_to_fresh s p :
  (forall q v, In (Write q v) (trace s) -> (q < length (children s))%nat) ->
  (length (children s) <= p)%nat -> writes_to p (trace s) = [].
Proof.
  intros Hb Hp. unfold writes_to.
  induction (trace s) as [|a t IH]; [done|]. simpl.
  rewrite IH by (intros q v Hin; apply (Hb q v); by right).
  destruct a as [| | |q v|]; try done.
  destruct (Nat.eqb_spec q p) as [->|]; [|done].
  specialize (Hb p v (or_introl eq_refl)). lia.
Qed.

(** From the moment a connection is accepted, the writes to its child are
    exactly the chunks received on its socket. *)
Lemma new_session_writes s url m1 dest evs :
  reachable s -> uncaught s = None ->
  url_match url = Some m1 -> decodeURIComponent m1 = Some dest ->
  uncaught (run evs (step (Connection url) s)) = None ->
  writes_to (length (children s)) (trace (run evs (step (Connection url) s)))
  = messages_on (length (sockets s)) evs.
Proof.
  intros Hr Hrun Hm Hd Hend. pose proof (reachable_wf s Hr) as Hwf.
  assert (has_nul dest = false) as Hn.
  { destruct (has_nul dest) eqn:Hn; [|done]. apply run_running in Hend.
    by rewrite (step_connection_nul s Hrun url m1 dest Hm Hd Hn) in Hend. }
  assert (session (step (Connection url) s) (length (sockets s)) (length (children s)))
    as Hs.
  { rewrite (step_connection_accept s Hrun url m1 dest Hm Hd Hn).
    eexists. split; [by apply list_lookup_middle|done]. }
  rewrite (run_writes evs _ _ _ (wf_step _ _ Hwf) Hs Hend).
  rewrite (step_connection_accept s Hrun url m1 dest Hm Hd Hn). simpl.
  rewrite writes_to_app. simpl. rewrite app_nil_r, writes_to_fresh; [done| |done].
  destruct Hr as [evs0 <-]. intros q v. by apply run_writes_bounded; [apply wf_init|].
Qed.

(** C1. For an accepted session (socket [ws], child [p]) of a reachable
    server: the handler of a message writes the chunk to the child's
    standard input in the same turn, right after logging it; and over any
    further sequence of events that the server survives, whatever its
    interleaving with other sessions, the writes to [p] are exactly the
    chunks received on [ws], in arrival order: none dropped, none
    reordered, none duplicated. *)
Theorem chunks_written_in_arrival_order s ws p :
  reachable s -> session s ws p ->
  (forall chunk, uncaught s = None ->
     trace (step (WsMessage ws chunk) s) =
     trace s ++ [ Log [Arg (Str (js "DATA")); Arg (Buf chunk)];
                  Write p (Buf chunk) ]) /\
  (forall evs, uncaught (run evs s) = None ->
     writes_to p (trace (run evs s)) =
     writes_to p (trace s) ++ messages_on ws evs).
Proof.
  intros Hr Hs. pose proof (reachable_wf s Hr) as Hwf. split.
  - intros chunk Hrun. destruct Hs as (x & Hx & Hev).
    by rewrite (step_ws_message s Hrun ws x p chunk Hx Hev).
  - intros evs Hend. by apply run_writes.
Qed.

Lemma chunks_written_in_arrival_order_witness :
  writes_to 0
    (trace (run [WsMessage 0 [x01]; StderrData 0 [x41]; WsMessage 0 [x02; x03]]
                (run [Connection (js "/rtmp/x")] init)))
  = [Buf [x01]; Buf [x02; x03]].
Proof.
  assert (reachable (run [Connection (js "/rtmp/x")] init)) as Hr
    by (exists [Connection (js "/rtmp/x")]; reflexivity).
  assert (session (run [Connection (js "/rtmp/x")] init) 0 0) as Hs
    by (eexists; split; reflexivity).
  exact (proj2 (chunks_written_in_arrival_order _ 0 0 Hr Hs)
           [WsMessage 0 [x01]; StderrData 0 [x41]; WsMessage 0 [x02; x03]]
           eq_refl).
Defined.

(** ** Coupling of the two lifetimes *)

Lemma terminated_state x :
  readyState (terminated x) = CLOSING \/ readyState (terminated x) = CLOSED.
Proof. unfold terminated. destruct (readyState x) eqn:E; simpl; auto. Qed.

Lemma not_open_state (o : option ready_state) :
  (exists x, o = Some x /\ x <> OPEN) -> o = Some CLOSING \/ o = Some CLOSED.
Proof. intros ([] & -> & H); auto. done. Qed.

(** C2. For a session (socket [ws], child [p]) of a reachable server: when
    the child's ['close'] event arrives, with any exit code and any signal,
    its listener logs the exit and terminates the socket in the same turn,
    so that the socket is no longer open when the turn ends and the server
    keeps running; and in every reachable state a child that has ended has
    no open socket. *)
Theorem child_exit_terminates_connection s ws p :
  reachable s -> session s ws p ->
  (forall code signal, uncaught s = None ->
     let s' := step (ChildClose p code signal) s in
     trace s' = trace s ++
       [ Log [Plus [Str (js "FFmpeg child process closed, code ");
                    nullable Num code; Str (js ", signal ");
                    nullable Str signal]];
         Terminate ws ] /\
     (socket_state s' ws = Some CLOSING \/ socket_state s' ws = Some CLOSED) /\
     (exists c', children s' !! p = Some c' /\ exited c' = true) /\
     uncaught s' = None) /\
  (forall c, children s !! p = Some c -> exited c = true ->
     socket_state s ws = Some CLOSING \/ socket_state s ws = Some CLOSED).
Proof.
  intros Hr Hs. pose proof (reachable_wf s Hr) as Hwf.
  destruct (session_child_events s ws p Hwf Hs) as (c & Hc & Hcev).
  destruct Hs as (x & Hx & Hev). split.
  - intros code signal Hrun. simpl.
    rewrite (step_child_close s Hrun p c ws code signal Hc Hcev). simpl.
    split_and!; [done| | |done].
    + unfold socket_state. simpl. rewrite list_lookup_alter_eq, Hx. simpl.
      destruct (terminated_state x) as [-> | ->]; auto.
    + exists (ended c). by rewrite list_lookup_alter_eq, Hc.
  - intros c0 Hc0 He. simplify_eq. apply not_open_state.
    unfold socket_state. rewrite Hx. simpl. exists (readyState x).
    split; [done|]. eapply (wf_exited s Hwf p); eauto.
Qed.

Lemma child_exit_terminates_connection_witness :
  socket_state
    (step (ChildClose 0 (Some 1%Z) None) (run [Connection (js "/rtmp/x")] init)) 0
  = Some CLOSING.
Proof.
  assert (reachable (run [Connection (js "/rtmp/x")] init)) as Hr
    by (exists [Connection (js "/rtmp/x")]; reflexivity).
  assert (session (run [Connection (js "/rtmp/x")] init) 0 0) as Hs
    by (eexists; split; reflexivity).
  destruct (proj1 (child_exit_terminates_connection _ 0 0 Hr Hs)
              (Some 1%Z) None eq_refl) as (_ & [H|H] & _).
  - exact H.
  - discriminate H.
Defined.

(** C3. In a reachable server: when the ['close'] event of a session's
    socket arrives, its listener sends SIGINT to the session's child in the
    same turn; in every reachable state the child of a closed session socket
    has been sent SIGINT; hence once all sockets are closed, however many
    sessions there were and however their events interleaved, every child
    that was spawned has been signalled. *)
Theorem connection_close_signals_child s :
  reachable s ->
  (forall ws p code, session s ws p -> uncaught s = None ->
     trace (step (WsClose ws code) s) = trace s ++ [Kill p (js "SIGINT")]) /\
  (forall ws p, session s ws p -> socket_state s ws = Some CLOSED ->
     In (Kill p (js "SIGINT")) (trace s)) /\
  ((forall ws x, sockets s !! ws = Some x -> readyState x = CLOSED) ->
   forall p c, children s !! p = Some c -> In (Kill p (js "SIGINT")) (trace s)).
Proof.
  intros Hr. pose proof (reachable_wf s Hr) as Hwf. split_and!.
  - intros ws p code (x & Hx & Hev) Hrun.
    by rewrite (step_ws_close s Hrun ws x p code Hx Hev).
  - intros ws p (x & Hx & Hev) Hst. unfold socket_state in Hst.
    rewrite Hx in Hst. simpl in Hst. apply (wf_closed s Hwf ws x p); congruence.
  - intros Hall p c Hc.
    destruct (wf_child s Hwf p c Hc) as (_ & _ & _ & ws & x & _ & Hx & Hev).
    apply (wf_closed s Hwf ws x p); eauto.
Qed.

Lemma connection_close_signals_child_witness :
  In (Kill 1 (js "SIGINT"))
     (trace (run [ Connection (js "/rtmp/a"); Connection (js "/rtmp/b");
                   WsClose 1 1000%Z; WsClose 0 1006%Z ] init)) /\
  In (Kill 0 (js "SIGINT"))
     (trace (run [ Connection (js "/rtmp/a"); Connection (js "/rtmp/b");
                   WsClose 1 1000%Z; WsClose 0 1006%Z ] init)).
Proof.
  pose (evs := [ Connection (js "/rtmp/a"); Connection (js "/rtmp/b");
                 WsClose 1 1000%Z; WsClose 0 1006%Z ]).
  assert (reachable (run evs init)) as Hr by (by exists evs).
  destruct (connection_close_signals_child _ Hr) as (_ & _ & H).
  assert (forall ws x, sockets (run evs init) !! ws = Some x ->
                       readyState x = CLOSED) as Hall.
  { intros [|[|ws]] x; vm_compute; intros [= <-]; reflexivity. }
  split.
  - refine (H Hall 1%nat _ _). vm_compute. reflexivity.
  - refine (H Hall 0%nat _ _). vm_compute. reflexivity.
Defined.

(** C10. The listener of a socket's ['close'] event is a single call of
    [kill] with the signal name SIGINT: it consults neither the state of
    the child nor its arguments.  In particular, when the socket of a
    session closes after the child has already ended, the signal is sent
    all the same. *)
Theorem close_listener_always_sends_sigint :
  (forall p args s,
     call (ws_on_close p) args s =
     Normal tt {| sockets := sockets s; children := children s;
                  trace := trace s ++ [Kill p (js "SIGINT")];
                  uncaught := uncaught s |}) /\
  (forall s ws p c code,
     reachable s -> uncaught s = None -> session s ws p ->
     children s !! p = Some c -> exited c = true ->
     trace (step (WsClose ws code) s) = trace s ++ [Kill p (js "SIGINT")]).
Proof.
  split.
  - reflexivity.
  - intros s ws p c code Hr Hrun (x & Hx & Hev) _ _.
    by rewrite (step_ws_close s Hrun ws x p code Hx Hev).
Qed.

Lemma close_listener_always_sends_sigint_witness :
  exited <$> children (run [Connection (js "/rtmp/x"); ChildClose 0 (Some 0%Z) None] init) !! 0%nat
  = Some true /\
  trace (step (WsClose 0 1006%Z)
           (run [Connection (js "/rtmp/x"); ChildClose 0 (Some 0%Z) None] init))
  = trace (run [Connection (js "/rtmp/x"); ChildClose 0 (Some 0%Z) None] init)
    ++ [Kill 0 (js "SIGINT")].
Proof.
  split; [reflexivity|].
  eapply (proj2 close_listener_always_sends_sigint).
  - by exists [Connection (js "/rtmp/x"); ChildClose 0 (Some 0%Z) None].
  - reflexivity.
  - eexists; split; reflexivity.
  - reflexivity.
  - reflexivity.
Defined.

(** ** The connection acceptor *)

Lemma strip_prefix_spec pre s rest :
  strip_prefix pre s = Some rest <-> s = pre ++ rest.
Proof.
  revert s. induction pre as [|a pre IH]; intros s; simpl.
  - split; [by intros [= ->]|by intros ->].
  - destruct s as [|c s]; [done|].
    destruct (N.eqb_spec a c) as [->|Hne].
    + rewrite IH. split; [by intros ->|by intros [= ->]].
    + split; [done|]. intros [= -> _]. done.
Qed.

(** The pattern accepts exactly the URLs made of ["/rtmp/"] and a suffix
    free of line terminators, and captures that suffix. *)
Lemma url_match_spec url m1 :
  url_match url = Some m1 <->
  url = js "/rtmp/" ++ m1 /\
  forallb (fun c => negb (is_line_terminator c)) m1 = true.
Proof.
  unfold url_match, dot_star_to_end.
  destruct (strip_prefix (js "/rtmp/") url) as [rest|] eqn:E.
  - apply strip_prefix_spec in E. subst url.
    destruct (forallb _ rest) eqn:F.
    + split; [by intros [= <-]|]. intros [H _]. by apply app_inv_head in H as ->.
    + split; [done|]. intros [H F']. apply app_inv_head in H as ->. congruence.
  - split; [done|]. intros [-> _].
    assert (strip_prefix (js "/rtmp/") (js "/rtmp/" ++ m1) = Some m1) as H
      by (by apply strip_prefix_spec).
    congruence.
Qed.

Lemma spawned_app t t' : spawned (t ++ t') = spawned t ++ spawned t'.
Proof. unfold spawned. by rewrite flat_map_app. Qed.

Lemma run_idle_socket evs s ws x :
  uncaught s = None ->
  sockets s !! ws = Some x -> ws_events x = [] ->
  Forall (on_socket ws) evs ->
  trace (run evs s) = trace s /\ children (run evs s) = children s /\
  uncaught (run evs s) = None.
Proof.
  revert s x. induction evs as [|ev evs IH]; intros s x Hrun Hx Hev Hall;
    [done|].
  apply Forall_cons in Hall as [Hev0 Hall]. rewrite run_cons.
  destruct ev; try done; simpl in Hev0; subst.
  - rewrite step_ws_message_idle; [by eauto|done|].
    intros x0 Hx0. by simplify_eq.
  - rewrite step_ws_close_idle; [|done|intros x0 Hx0; by simplify_eq].
    destruct (IH {| sockets := alter closed ws (sockets s);
                    children := children s; trace := trace s;
                    uncaught := None |} (closed x)) as (? & ? & ?);
      simpl; try done.
    by rewrite list_lookup_alter_eq, Hx.
Qed.

(** C4. When the URL of a new connection does not match the pattern, the
    handler terminates the socket and returns: the termination is the only
    action, no child is spawned, the socket carries no listener and forms
    no session, the server keeps running, and no later event of that socket
    makes the server act. *)
Theorem unmatched_path_is_rejected s url :
  uncaught s = None ->
  url_match url = None ->
  let ws := length (sockets s) in
  let s' := step (Connection url) s in
  trace s' = trace s ++ [Terminate ws] /\
  spawned (trace s') = spawned (trace s) /\
  children s' = children s /\
  sockets s' = sockets s ++ [ {| readyState := CLOSING; ws_events := [] |} ] /\
  (forall p, ~ session s' ws p) /\
  uncaught s' = None /\
  (forall evs, Forall (on_socket ws) evs ->
     trace (run evs s') = trace s' /\ children (run evs s') = children s').
Proof.
  intros Hrun Hm. simpl. rewrite (step_connection_reject s Hrun url Hm). simpl.
  split_and!; try done.
  - rewrite spawned_app. simpl. by rewrite app_nil_r.
  - intros p (x & Hx & Hev). simpl in Hx.
    rewrite list_lookup_middle in Hx by done. by simplify_eq.
  - intros evs Hall.
    match goal with
    | |- context [run evs ?s'] =>
      destruct (run_idle_socket evs s' (length (sockets s))
                  {| readyState := CLOSING; ws_events := [] |})
        as (Ht & Hc & _)
    end; [done| |done|done|by split].
    simpl. by rewrite list_lookup_middle.
Qed.

Lemma unmatched_path_is_rejected_witness :
  trace (step (Connection (js "/nonsense")) init) = [Terminate 0] /\
  children (step (Connection (js "/nonsense")) init) = [].
Proof.
  destruct (unmatched_path_is_rejected init (js "/nonsense") eq_refl eq_refl)
    as (Ht & _ & Hc & _).
  split; [exact Ht|exact Hc].
Defined.

Lemma last_ffmpeg_args dest : last (ffmpeg_args dest) = Some dest.
Proof. reflexivity. Qed.

(** C5 as stated fails: the URL ["/rtmp/%"] matches the pattern, but its
    suffix is not a well-formed escape sequence; [decodeURIComponent]
    throws, the handler is left before [spawn], and no process receives any
    argument. *)
Lemma malformed_suffix_spawns_nothing :
  url_match (js "/rtmp/%") = Some (js "%") /\
  decodeURIComponent (js "%") = None /\
  spawned (trace (step (Connection (js "/rtmp/%")) init)) = [] /\
  children (step (Connection (js "/rtmp/%")) init) = [].
Proof. repeat split; reflexivity. Qed.

(** C5 as stated also fails on a well-formed suffix that decodes to a
    string with U+0000: the URL ["/rtmp/a%00b"] matches and decodes, the
    target is logged, and [spawn] refuses the argument with a TypeError
    that nothing catches; no process is spawned. *)
Lemma nul_suffix_spawns_nothing :
  url_match (js "/rtmp/a%00b") = Some (js "a%00b") /\
  decodeURIComponent (js "a%00b") = Some [97; 0; 98] /\
  spawned (trace (step (Connection (js "/rtmp/a%00b")) init)) = [] /\
  children (step (Connection (js "/rtmp/a%00b")) init) = [] /\
  uncaught (step (Connection (js "/rtmp/a%00b")) init)
    = Some (Err (js "TypeError") (js "ERR_INVALID_ARG_VALUE")).
Proof. repeat split; reflexivity. Qed.

(** C5, amended. When the URL of a new connection matches the pattern, the
    captured suffix is well-formed for [decodeURIComponent] and the decoded
    string holds no U+0000, the handler spawns exactly one process,
    [ffmpeg], whose argument list ends with the decoded suffix, unchanged;
    the child object carries that argument list. *)
Theorem decoded_suffix_is_last_argument s url m1 dest :
  uncaught s = None ->
  url_match url = Some m1 ->
  decodeURIComponent m1 = Some dest ->
  has_nul dest = false ->
  let s' := step (Connection url) s in
  url = js "/rtmp/" ++ m1 /\
  spawned (trace s') =
    spawned (trace s) ++ [(length (children s), js "ffmpeg", ffmpeg_args dest)] /\
  last (ffmpeg_args dest) = Some dest /\
  (spawnargs <$> children s' !! length (children s)) = Some (ffmpeg_args dest) /\
  uncaught s' = None.
Proof.
  intros Hrun Hm Hd Hn. simpl.
  rewrite (step_connection_accept s Hrun url m1 dest Hm Hd Hn). simpl.
  split_and!; try done.
  - by apply url_match_spec in Hm as [-> _].
  - by rewrite spawned_app.
  - by rewrite list_lookup_middle.
Qed.

Lemma decoded_suffix_is_last_argument_witness :
  spawned (trace (step (Connection (js "/rtmp/rtmp%3A%2F%2Fhost%2Fapp%2Fkey")) init))
  = [(0%nat, js "ffmpeg", ffmpeg_args (js "rtmp://host/app/key"))].
Proof.
  exact (proj1 (proj2 (decoded_suffix_is_last_argument init
    (js "/rtmp/rtmp%3A%2F%2Fhost%2Fapp%2Fkey")
    (js "rtmp%3A%2F%2Fhost%2Fapp%2Fkey") (js "rtmp://host/app/key")
    eq_refl eq_refl eq_refl eq_refl))).
Defined.

(** C8 as stated fails: the URL ["/rtmp/"] matches the pattern with an
    empty capture, and the handler spawns [ffmpeg] with the empty string as
    destination and sets the session up. *)
Lemma empty_destination_is_spawned :
  url_match (js "/rtmp/") = Some [] /\
  decodeURIComponent [] = Some [] /\
  spawned (trace (step (Connection (js "/rtmp/")) init))
    = [(0%nat, js "ffmpeg", ffmpeg_args [])] /\
  last (ffmpeg_args []) = Some [] /\
  session (step (Connection (js "/rtmp/")) init) 0 0.
Proof.
  split_and!; try reflexivity. eexists. split; reflexivity.
Qed.

(** C8, amended. A session is created for a new connection only when its
    URL matches the pattern: the child is then spawned with the decoded
    capture as destination, which may be empty.  When the URL does not
    match, nothing is spawned, no session exists for the socket and the
    socket is terminated. *)
Theorem session_requires_matching_path s url :
  uncaught s = None ->
  let ws := length (sockets s) in
  let s' := step (Connection url) s in
  (forall p, session s' ws p ->
     exists m1 dest,
       url_match url = Some m1 /\ url = js "/rtmp/" ++ m1 /\
       decodeURIComponent m1 = Some dest /\
       p = length (children s) /\
       children s' = children s ++ [session_child ws dest]) /\
  (url_match url = None ->
     spawned (trace s') = spawned (trace s) /\
     children s' = children s /\
     (forall p, ~ session s' ws p) /\
     socket_state s' ws = Some CLOSING /\
     In (Terminate ws) (trace s')).
Proof.
  intros Hrun. simpl. split.
  - intros p (x & Hx & Hev).
    destruct (url_match url) as [m1|] eqn:Hm;
      [destruct (decodeURIComponent m1) as [dest|] eqn:Hd;
       [destruct (has_nul dest) eqn:Hn|]|].
    + rewrite (step_connection_nul s Hrun url m1 dest Hm Hd Hn) in Hx.
      simpl in Hx. rewrite list_lookup_middle in Hx by done.
      injection Hx as <-. done.
    + rewrite (step_connection_accept s Hrun url m1 dest Hm Hd Hn) in *.
      simpl in *. rewrite list_lookup_middle in Hx by done.
      injection Hx as <-. simpl in Hev. apply session_ws_events_inj in Hev.
      exists m1, dest. split_and!; try done.
      by apply url_match_spec in Hm as [-> _].
    + rewrite (step_connection_malformed s Hrun url m1 Hm Hd) in Hx.
      simpl in Hx. rewrite list_lookup_middle in Hx by done.
      injection Hx as <-. done.
    + rewrite (step_connection_reject s Hrun url Hm) in Hx.
      simpl in Hx. rewrite list_lookup_middle in Hx by done.
      injection Hx as <-. done.
  - intros Hm. rewrite (step_connection_reject s Hrun url Hm).
    unfold socket_state. simpl. split_and!; try done.
    + rewrite spawned_app. simpl. by rewrite app_nil_r.
    + intros p (x & Hx & Hev). simpl in Hx.
      rewrite list_lookup_middle in Hx by done. by simplify_eq.
    + by rewrite list_lookup_middle.
    + apply in_or_app. right. by left.
Qed.

Lemma session_requires_matching_path_witness :
  children (step (Connection (js "/rtmp/a%20b")) init)
  = [session_child 0 (js "a b")].
Proof.
  assert (session (step (Connection (js "/rtmp/a%20b")) init) 0 0) as Hs
    by (eexists; split; reflexivity).
  destruct (proj1 (session_requires_matching_path init (js "/rtmp/a%20b") eq_refl)
              0%nat Hs) as (m1 & dest & Hm & _ & Hd & _ & Hc).
  injection Hm as <-. injection Hd as <-. exact Hc.
Defined.

(** ** The relay scenario *)

(** C9 as stated fails: the path of the scenario starts with ["/relay/"],
    which the pattern of the server does not accept; the socket is
    terminated, nothing is spawned, written or signalled. *)
Lemma relay_prefix_is_rejected :
  url_match (js "/relay/rtmp%3A%2F%2Fhost%2Fapp%2Fkey") = None /\
  trace (run (relay_scenario (js "/relay/rtmp%3A%2F%2Fhost%2Fapp%2Fkey")
                (repeat x00 1024) (repeat x00 2048) (repeat x00 512)) init)
  = [Terminate 0].
Proof. split; vm_compute; reflexivity. Qed.

(** C9, amended. With the path ["/rtmp/rtmp%3A%2F%2Fhost%2Fapp%2Fkey"],
    three chunks of 1024, 2048 and 512 bytes and then the close of the
    connection: [ffmpeg] is spawned with destination
    ["rtmp://host/app/key"], the three chunks are written to its standard
    input in that order, so with those sizes, and then SIGINT is sent to
    it. *)
Theorem rtmp_scenario_trace c1 c2 c3 :
  length c1 = 1024%nat -> length c2 = 2048%nat -> length c3 = 512%nat ->
  let t := trace (run (relay_scenario (js "/rtmp/rtmp%3A%2F%2Fhost%2Fapp%2Fkey")
                         c1 c2 c3) init) in
  t = [ Log [Arg (Str (js "Target RTMP URL:")); Arg (Str (js "rtmp://host/app/key"))];
        Spawn 0 (js "ffmpeg") (ffmpeg_args (js "rtmp://host/app/key"));
        Log [Arg (Str (js "DATA")); Arg (Buf c1)]; Write 0 (Buf c1);
        Log [Arg (Str (js "DATA")); Arg (Buf c2)]; Write 0 (Buf c2);
        Log [Arg (Str (js "DATA")); Arg (Buf c3)]; Write 0 (Buf c3);
        Kill 0 (js "SIGINT") ] /\
  last (ffmpeg_args (js "rtmp://host/app/key")) = Some (js "rtmp://host/app/key") /\
  map size (writes_to 0 t) = [1024; 2048; 512]%nat.
Proof.
  intros H1 H2 H3. cbv zeta.
  assert (trace (run (relay_scenario (js "/rtmp/rtmp%3A%2F%2Fhost%2Fapp%2Fkey")
                        c1 c2 c3) init)
          = [ Log [Arg (Str (js "Target RTMP URL:")); Arg (Str (js "rtmp://host/app/key"))];
              Spawn 0 (js "ffmpeg") (ffmpeg_args (js "rtmp://host/app/key"));
              Log [Arg (Str (js "DATA")); Arg (Buf c1)]; Write 0 (Buf c1);
              Log [Arg (Str (js "DATA")); Arg (Buf c2)]; Write 0 (Buf c2);
              Log [Arg (Str (js "DATA")); Arg (Buf c3)]; Write 0 (Buf c3);
              Kill 0 (js "SIGINT") ]) as -> by reflexivity.
  split_and!; [done|done|]. simpl. by rewrite H1, H2, H3.
Qed.

Lemma rtmp_scenario_trace_witness :
  map size (writes_to 0
    (trace (run (relay_scenario (js "/rtmp/rtmp%3A%2F%2Fhost%2Fapp%2Fkey")
                   (repeat x00 1024) (repeat x01 2048) (repeat x02 512)) init)))
  = [1024; 2048; 512]%nat.
Proof.
  exact (proj2 (proj2 (rtmp_scenario_trace
    (repeat x00 1024) (repeat x01 2048) (repeat x02 512)
    (repeat_length _ _) (repeat_length _ _) (repeat_length _ _)))).
Defined.

(** ** Failures *)

(** C6 as stated fails: after a chunk was written and the write failed, the
    ['error'] listener of the child's standard input has logged the error
    and nothing else.  The socket is still open, the child has received no
    signal, and the next chunk is written as before: the session is not
    torn down. *)
Lemma write_failure_leaves_session_up :
  socket_state
    (run [Connection (js "/rtmp/x"); WsMessage 0 [x01]; StdinError 0 (js "write EPIPE")]
         init) 0 = Some OPEN /\
  trace
    (run [Connection (js "/rtmp/x"); WsMessage 0 [x01]; StdinError 0 (js "write EPIPE")]
         init)
  = [ Log [Arg (Str (js "Target RTMP URL:")); Arg (Str (js "x"))];
      Spawn 0 (js "ffmpeg") (ffmpeg_args (js "x"));
      Log [Arg (Str (js "DATA")); Arg (Buf [x01])];
      Write 0 (Buf [x01]);
      Log [Arg (Str (js "FFmpeg STDIN Error")); Arg (Err (js "Error") (js "write EPIPE"))] ] /\
  writes_to 0 (trace
    (run [Connection (js "/rtmp/x"); WsMessage 0 [x01]; StdinError 0 (js "write EPIPE");
          WsMessage 0 [x02]] init))
  = [Buf [x01]; Buf [x02]].
Proof. repeat split; reflexivity. Qed.

(** C6, amended. For a session (socket [ws], child [p]) of a reachable,
    running server.  The ['message'] listener logs the chunk, calls [write]
    and does nothing else: it never throws and neither detects nor logs a
    failure of the write.  When the child's standard input reports a
    failure by its ['error'] event, the listener registered on it logs the
    error and does nothing else.  Neither leaves an uncaught exception,
    and the server goes on accepting connections: one whose URL matches
    and decodes to a destination without U+0000 gets its session.  The
    session is not torn down: sockets and children are as they were, and
    the next chunk is logged and written as before. *)
Theorem stdin_error_is_logged_only s ws p message :
  reachable s -> uncaught s = None -> session s ws p ->
  (forall chunk,
     trace (step (WsMessage ws chunk) s) =
       trace s ++ [ Log [Arg (Str (js "DATA")); Arg (Buf chunk)];
                    Write p (Buf chunk) ] /\
     sockets (step (WsMessage ws chunk) s) = sockets s /\
     children (step (WsMessage ws chunk) s) = children s /\
     uncaught (step (WsMessage ws chunk) s) = None) /\
  let s' := step (StdinError p message) s in
  trace s' = trace s ++
    [ Log [Arg (Str (js "FFmpeg STDIN Error")); Arg (Err (js "Error") message)] ] /\
  sockets s' = sockets s /\ children s' = children s /\
  session s' ws p /\
  uncaught s' = None /\
  (forall chunk,
     trace (step (WsMessage ws chunk) s') =
       trace s' ++ [ Log [Arg (Str (js "DATA")); Arg (Buf chunk)];
                     Write p (Buf chunk) ] /\
     uncaught (step (WsMessage ws chunk) s') = None) /\
  (forall url m1 dest,
     url_match url = Some m1 -> decodeURIComponent m1 = Some dest ->
     has_nul dest = false ->
     uncaught (step (Connection url) s') = None /\
     session (step (Connection url) s') (length (sockets s')) (length (children s'))).
Proof.
  intros Hr Hrun Hs. pose proof (reachable_wf s Hr) as Hwf.
  destruct (session_child_events s ws p Hwf Hs) as (c & Hc & _).
  destruct (wf_child s Hwf p c Hc) as (Hin & _).
  pose proof Hs as (x & Hx & Hev). split.
  { intros chunk. by rewrite (step_ws_message s Hrun ws x p chunk Hx Hev). }
  cbv zeta. rewrite (step_stdin_error s Hrun p c message Hc Hin).
  split_and!; try done.
  - intros chunk.
    by rewrite step_ws_message with (x := x) (p := p).
  - intros url m1 dest Hm Hd Hn.
    rewrite step_connection_accept with (m1 := m1) (dest := dest) by done.
    simpl. split; [done|]. eexists. split; [by apply list_lookup_middle|done].
Qed.

Lemma stdin_error_is_logged_only_witness :
  sockets (step (StdinError 0 (js "write EPIPE")) (run [Connection (js "/rtmp/x")] init))
  = sockets (run [Connection (js "/rtmp/x")] init).
Proof.
  assert (reachable (run [Connection (js "/rtmp/x")] init)) as Hr
    by (exists [Connection (js "/rtmp/x")]; reflexivity).
  assert (session (run [Connection (js "/rtmp/x")] init) 0 0) as Hs
    by (eexists; split; reflexivity).
  exact (proj1 (proj2 (proj2 (stdin_error_is_logged_only _ 0 0 (js "write EPIPE")
                                Hr eq_refl Hs)))).
Defined.

(** The handler registers no ['error'] listener on the child itself, so an
    ['error'] event of any child of a reachable server is thrown. *)
Lemma child_error_is_uncaught s p c message :
  reachable s -> uncaught s = None -> children s !! p = Some c ->
  step (ChildError p message) s =
  {| sockets := sockets s; children := children s; trace := trace s;
     uncaught := Some (Err (js "Error") message) |}.
Proof.
  intros Hr Hrun Hc.
  destruct (wf_child s (reachable_wf s Hr) p c Hc) as (_ & _ & _ & ws & x & Hev & _).
  apply (step_child_error s Hrun p c message Hc). by rewrite Hev.
Qed.

(** C7 on the code.  A connection is accepted and [ffmpeg] cannot be
    started: the ['error'] event of the child finds no listener and is
    thrown.  The exception is uncaught, the socket of the session was never
    terminated, nothing was logged for the failure, and the server handles
    no further connection. *)
Theorem spawn_failure_is_uncaught :
  let s := run [Connection (js "/rtmp/x"); ChildError 0 (js "spawn ffmpeg ENOENT")]
               init in
  uncaught s = Some (Err (js "Error") (js "spawn ffmpeg ENOENT")) /\
  socket_state s 0 = Some OPEN /\
  trace s = [ Log [Arg (Str (js "Target RTMP URL:")); Arg (Str (js "x"))];
              Spawn 0 (js "ffmpeg") (ffmpeg_args (js "x")) ] /\
  step (Connection (js "/rtmp/y")) s = s.
Proof. repeat split; reflexivity. Qed.

(** * Further properties of the relay *)

(** ** What can end the server *)

(** X1. Which events end the server.  The events considered are a new
    connection and the events of the sockets, of the children and of the
    children's three streams.  In a reachable, running server, such an
    event leaves an uncaught exception in exactly these cases: a
    connection whose URL matches the pattern with a suffix that
    [decodeURIComponent] rejects; a connection whose URL matches and
    decodes to a string with U+0000; an ['error'] event of a child that
    exists, or of its standard output or standard error; an ['error']
    event of a socket that exists.  Messages, closes, errors of a child's
    standard input and stream data never do. *)
Theorem events_that_end_the_server s ev :
  reachable s -> uncaught s = None ->
  (uncaught (step ev s) <> None <->
   (exists url m1, ev = Connection url /\ url_match url = Some m1 /\
                   decodeURIComponent m1 = None) \/
   (exists url m1 dest, ev = Connection url /\ url_match url = Some m1 /\
                        decodeURIComponent m1 = Some dest /\
                        has_nul dest = true) \/
   (exists p message,
      (ev = ChildError p message \/ ev = StdoutError p message \/
       ev = StderrError p message) /\
      (p < length (children s))%nat) \/
   (exists ws message, ev = WsError ws message /\
                       (ws < length (sockets s))%nat)).
Proof.
  intros Hr Hrun. pose proof (reachable_wf s Hr) as Hwf.
  pose proof (step_view_intro ev s Hwf Hrun) as Hv.
  remember (step ev s) as s' eqn:Es. clear Es.
  split.
  - intros Hne.
    destruct Hv; simpl in Hne; try done; try congruence.
    + left. eauto.
    + right. right. left. exists p, message.
      split; [by left|by eapply lookup_lt_Some].
    + right. left. eauto 10.
    + right. right. right. exists ws, message.
      split; [done|by eapply lookup_lt_Some].
    + right. right. left. exists p, message.
      split; [by right; left|by eapply lookup_lt_Some].
    + right. right. left. exists p, message.
      split; [by right; right|by eapply lookup_lt_Some].
  - intros H.
    destruct Hv; simpl; try done;
      try (destruct H as [(u & m & He & Hm & Hd)
                         |[(u & m & d & He & Hm & Hd & Hn)
                          |[(q & msg & He & Hlt)|(w & msg & He & Hlt)]]];
           try destruct He as [He|[He|He]]; simplify_eq; congruence).
    (* an event without listeners *)
    destruct H as [(u & m & He & Hm & Hd)
                  |[(u & m & d & He & Hm & Hd & Hn)
                   |[(q & msg & He & Hlt)|(w & msg & He & Hlt)]]];
      try destruct He as [He|[He|He]]; subst; simpl in *; try done;
      match goal with
      | Hi : _ !! _ = None |- _ => apply lookup_ge_None in Hi; lia
      end.
Qed.

Lemma events_that_end_the_server_witness :
  uncaught (step (WsError 0 (js "Invalid WebSocket frame"))
              (run [Connection (js "/rtmp/x")] init)) <> None.
Proof.
  apply (events_that_end_the_server (run [Connection (js "/rtmp/x")] init)
           (WsError 0 (js "Invalid WebSocket frame"))).
  - by exists [Connection (js "/rtmp/x")].
  - reflexivity.
  - right. right. right. exists 0%nat, (js "Invalid WebSocket frame").
    split; [reflexivity|]. vm_compute. lia.
Defined.

(** ** Signals *)

Lemma kills_to_app p t t' : kills_to p (t ++ t') = kills_to p t ++ kills_to p t'.
Proof. unfold kills_to. by rewrite flat_map_app. Qed.

Lemma step_kills ev s ws p :
  wf s -> uncaught s = None -> session s ws p ->
  kills_to p (trace (step ev s)) =
  kills_to p (trace s) ++ repeat (js "SIGINT") (closes_of ws [ev]).
Proof.
  intros Hwf Hrun Hs.
  pose proof (step_view_intro ev s Hwf Hrun) as Hv.
  remember (step ev s) as s' eqn:Es. clear Es.
  destruct Hv; unfold closes_of; simpl; rewrite ?kills_to_app; simpl;
    try reflexivity; try (by rewrite app_nil_r).
  - (* the close of a session socket *)
    destruct (Nat.eqb_spec ws0 ws) as [->|Hne].
    + assert (p0 = p) as -> by (eapply session_unique_child; [exists x|]; eauto).
      by rewrite Nat.eqb_refl.
    + destruct (Nat.eqb_spec p0 p) as [->|]; [|reflexivity].
      destruct Hne. eapply session_unique_socket; [done|exists x; eauto|done].
  - (* the close of a socket without listeners *)
    destruct (Nat.eqb_spec ws0 ws) as [->|]; [|by rewrite app_nil_r].
    destruct Hs as (x & Hx & Hev). by rewrite (H x Hx) in Hev.
  - (* an event without listeners *)
    destruct ev; simpl in *; rewrite ?app_nil_r; done.
Qed.

Lemma closes_of_cons ws ev evs :
  closes_of ws (ev :: evs) = (closes_of ws [ev] + closes_of ws evs)%nat.
Proof.
  unfold closes_of. simpl.
  by destruct (match ev with WsClose w _ => Nat.eqb w ws | _ => false end).
Qed.

(** X2. For a session (socket [ws], child [p]) of a reachable server, over
    any sequence of events that the server survives: the signals sent to
    [p] are one SIGINT per ['close'] event of [ws] and nothing else.  No
    event of another session, no exit or error of the child itself and no
    message makes the server signal [p]. *)
Theorem child_signalled_once_per_close_of_its_socket s ws p evs :
  reachable s -> session s ws p -> uncaught (run evs s) = None ->
  kills_to p (trace (run evs s)) =
  kills_to p (trace s) ++ repeat (js "SIGINT") (closes_of ws evs).
Proof.
  intros Hr. pose proof (reachable_wf s Hr) as Hwf. clear Hr.
  revert s Hwf. induction evs as [|ev evs IH]; intros s Hwf Hs Hend.
  - simpl. by rewrite app_nil_r.
  - rewrite run_cons in *.
    assert (uncaught s = None) as Hrun.
    { apply run_running in Hend. destruct (uncaught s) eqn:E; [|done].
      by rewrite (step_crashed _ _ _ E), E in Hend. }
    rewrite IH; [|by apply wf_step|by apply step_keeps_session|done].
    rewrite (step_kills ev s ws p Hwf Hrun Hs), (closes_of_cons ws ev evs).
    by rewrite repeat_app, app_assoc.
Qed.

Lemma child_signalled_once_per_close_of_its_socket_witness :
  kills_to 0
    (trace (run [ Connection (js "/rtmp/b"); WsMessage 0 [x01]; WsClose 1 1000%Z;
                  ChildClose 0 None (Some (js "SIGSEGV")); WsClose 0 1006%Z ]
                (run [Connection (js "/rtmp/a")] init)))
  = [js "SIGINT"].
Proof.
  assert (reachable (run [Connection (js "/rtmp/a")] init)) as Hr
    by (exists [Connection (js "/rtmp/a")]; reflexivity).
  assert (session (run [Connection (js "/rtmp/a")] init) 0 0) as Hs
    by (eexists; split; reflexivity).
  exact (child_signalled_once_per_close_of_its_socket _ 0 0
           [ Connection (js "/rtmp/b"); WsMessage 0 [x01]; WsClose 1 1000%Z;
             ChildClose 0 None (Some (js "SIGSEGV")); WsClose 0 1006%Z ]
           Hr Hs eq_refl).
Defined.

(** ** Isolation of sessions *)

Lemma terminations_of_app ws t t' :
  terminations_of ws (t ++ t') = (terminations_of ws t + terminations_of ws t')%nat.
Proof. unfold terminations_of. by rewrite List.filter_app, length_app. Qed.

Lemma session_socket_of_child s ws ws' p x :
  wf s -> session s ws p ->
  sockets s !! ws' = Some x -> ws_events x = session_ws_events p -> ws' = ws.
Proof.
  intros Hwf Hs Hx Hev. eapply session_unique_socket; [done| |done].
  by exists x.
Qed.

(** X6. An event that is emitted neither on the socket of a session nor on
    its child or the child's streams leaves the session alone: the socket
    and child objects are unchanged, nothing is written to the child, it is
    not signalled and the socket is not terminated.  This covers new
    connections, accepted or not, and every event of every other
    session. *)
Theorem foreign_event_leaves_session_untouched s ws p ev :
  reachable s -> session s ws p -> concerns ws p ev = false ->
  sockets (step ev s) !! ws = sockets s !! ws /\
  children (step ev s) !! p = children s !! p /\
  writes_to p (trace (step ev s)) = writes_to p (trace s) /\
  kills_to p (trace (step ev s)) = kills_to p (trace s) /\
  terminations_of ws (trace (step ev s)) = terminations_of ws (trace s).
Proof.
  intros Hr Hs Hf. pose proof (reachable_wf s Hr) as Hwf.
  destruct (uncaught s) as [e|] eqn:Hrun.
  { by rewrite (step_crashed _ _ _ Hrun). }
  pose proof (step_view_intro ev s Hwf Hrun) as Hv.
  remember (step ev s) as s' eqn:Es. clear Es.
  destruct (session_child_events s ws p Hwf Hs) as (c0 & Hc0 & Hc0ev).
  pose proof Hs as (x0 & Hx0 & Hx0ev).
  pose proof (lookup_lt_Some _ _ _ Hx0) as Hwslt.
  pose proof (lookup_lt_Some _ _ _ Hc0) as Hplt.
  destruct Hv; simpl in *;
    rewrite ?writes_to_app, ?kills_to_app, ?terminations_of_app;
    unfold terminations_of; simpl;
    try (apply Nat.eqb_neq in Hf);
    rewrite ?lookup_app_l by done.
  - (* a rejected connection *)
    destruct (Nat.eqb_spec (length (sockets s)) ws) as [E|_]; [exfalso; lia|].
    simpl. by rewrite !app_nil_r, Nat.add_0_r.
  - done.
  - by rewrite !app_nil_r, Nat.add_0_r.
  - (* a message of another session *)
    rewrite Nat.add_0_r.
    destruct (Nat.eqb_spec p0 p) as [->|]; [|by rewrite !app_nil_r].
    destruct Hf. by eapply session_socket_of_child.
  - (* the close of another session's socket *)
    rewrite list_lookup_alter_ne, Nat.add_0_r by done.
    destruct (Nat.eqb_spec p0 p) as [->|]; [|by rewrite !app_nil_r].
    destruct Hf. by eapply session_socket_of_child.
  - by rewrite list_lookup_alter_ne by done.
  - (* the end of another session's child *)
    assert (ws0 <> ws) as Hne.
    { intros ->. destruct Hf. simplify_eq. rewrite Hx0ev in H2.
      by apply session_ws_events_inj in H2. }
    rewrite !list_lookup_alter_ne by done.
    destruct (Nat.eqb_spec ws0 ws) as [E|_]; [done|].
    simpl. by rewrite !app_nil_r, Nat.add_0_r.
  - done.
  - by rewrite !app_nil_r, Nat.add_0_r.
  - by rewrite !app_nil_r, Nat.add_0_r.
  - done.
  - (* a connection that spawn refuses *)
    by rewrite !app_nil_r, Nat.add_0_r.
  - done.
  - done.
  - done.
Qed.

Lemma foreign_event_leaves_session_untouched_witness :
  sockets (step (WsClose 1 1000%Z)
             (run [Connection (js "/rtmp/a"); Connection (js "/rtmp/b")] init)) !! 0%nat
  = sockets (run [Connection (js "/rtmp/a"); Connection (js "/rtmp/b")] init) !! 0%nat.
Proof.
  refine (proj1 (foreign_event_leaves_session_untouched _ 0 0 (WsClose 1 1000%Z)
                   _ _ eq_refl)).
  - by exists [Connection (js "/rtmp/a"); Connection (js "/rtmp/b")].
  - eexists; split; reflexivity.
Defined.

(** ** Diagnostics *)

(** X5. What [ffmpeg] prints never changes the state of the relay: data on
    the standard output of a child finds no listener and leaves the server
    as it is; data on its standard error is logged, once, and neither
    sockets nor children change. *)
Theorem child_output_is_logged_only s p chunk :
  reachable s -> uncaught s = None ->
  step (StdoutData p chunk) s = s /\
  sockets (step (StderrData p chunk) s) = sockets s /\
  children (step (StderrData p chunk) s) = children s /\
  uncaught (step (StderrData p chunk) s) = None /\
  trace (step (StderrData p chunk) s) =
    trace s ++
    match children s !! p with
    | Some _ => [Log [Arg (Str (js "FFmpeg STDERR:")); ToString (Buf chunk)]]
    | None => []
    end.
Proof.
  intros Hr Hrun. pose proof (reachable_wf s Hr) as Hwf.
  destruct (children s !! p) as [c|] eqn:Hc.
  - destruct (wf_child s Hwf p c Hc) as (_ & Hout & Herr & _).
    rewrite (step_stdout_data s Hrun p c chunk Hc Hout).
    by rewrite (step_stderr_data s Hrun p c chunk Hc Herr).
  - rewrite (step_child_absent s Hrun (StdoutData p chunk) p) by done.
    rewrite (step_child_absent s Hrun (StderrData p chunk) p) by done.
    by rewrite app_nil_r.
Qed.

Lemma child_output_is_logged_only_witness :
  children (step (StderrData 0 [x66; x72]) (run [Connection (js "/rtmp/x")] init))
  = children (run [Connection (js "/rtmp/x")] init).
Proof.
  refine (proj1 (proj2 (proj2 (child_output_is_logged_only
            (run [Connection (js "/rtmp/x")] init) 0 [x66; x72] _ eq_refl)))).
  by exists [Connection (js "/rtmp/x")].
Defined.

(** ** Invariants of the trace *)

Lemma reachable_ind (P : server -> Prop) :
  P init ->
  (forall ev s s', wf s -> uncaught s = None -> P s -> step_view s ev s' -> P s') ->
  forall s, reachable s -> P s.
Proof.
  intros H0 Hstep s [evs <-].
  assert (forall s0, wf s0 -> P s0 -> P (run evs s0)) as H.
  { induction evs as [|ev evs IH]; intros s0 Hwf HP; [done|].
    rewrite run_cons. apply IH; [by apply wf_step|].
    destruct (uncaught s0) as [e|] eqn:Hrun.
    - by rewrite (step_crashed _ _ _ Hrun).
    - eapply Hstep; [done..|]. by apply step_view_intro. }
  apply H; [apply wf_init|done].
Qed.

Lemma terminate_implies_child_ended s :
  reachable s ->
  forall ws, In (Terminate ws) (trace s) ->
  exists x, sockets s !! ws = Some x /\
    (ws_events x = [] \/
     exists p c, ws_events x = session_ws_events p /\
                 children s !! p = Some c /\ exited c = true).
Proof.
  revert s.
  apply (reachable_ind (fun s => forall ws, In (Terminate ws) (trace s) ->
    exists x, sockets s !! ws = Some x /\
      (ws_events x = [] \/
       exists p c, ws_events x = session_ws_events p /\
                   children s !! p = Some c /\ exited c = true))); [done|].
  intros ev s s' Hwf Hrun IH Hv ws Hin.
  destruct Hv; simpl in *;
    try (apply in_app_or in Hin as [Hin|Hin]; simpl in Hin;
         [|repeat (destruct Hin as [Hin|Hin]; try done)]);
    try (destruct (IH ws Hin) as (x0 & Hx0 & Hcase)).
  - exists x0. split; [by apply lookup_app_l_Some|done].
  - injection Hin as <-. eexists. split; [by apply list_lookup_middle|by left].
  - exists x0. split; [by apply lookup_app_l_Some|done].
  - exists x0. split; [by apply lookup_app_l_Some|].
    destruct Hcase as [?|(q & c0 & ? & ? & ?)]; [by left|right].
    exists q, c0. split_and!; try done. by apply lookup_app_l_Some.
  - eauto.
  - destruct (lookup_alter_keep closed ws_events (sockets s) ws0 ws x0)
      as (y & Hy & Hyev & _); [done..|].
    exists y. split; [done|]. by rewrite Hyev.
  - destruct (lookup_alter_keep closed ws_events (sockets s) ws0 ws x0)
      as (y & Hy & Hyev & _); [done..|].
    exists y. split; [done|]. by rewrite Hyev.
  - destruct (lookup_alter_keep terminated ws_events (sockets s) ws0 ws x0)
      as (y & Hy & Hyev & _); [apply terminated_events|done|].
    exists y. split; [done|]. rewrite Hyev.
    destruct Hcase as [?|(q & c0 & ? & Hc0 & He)]; [by left|right].
    exists q. destruct (decide (p = q)) as [->|Hne].
    + exists (ended c0). rewrite list_lookup_alter_eq, Hc0. by split_and!.
    + exists c0. rewrite list_lookup_alter_ne by done. by split_and!.
  - injection Hin as <-.
    exists (terminated x). rewrite list_lookup_alter_eq, H1. split; [done|].
    right. exists p, (ended c). rewrite terminated_events, list_lookup_alter_eq, H.
    by split_and!.
  - eauto.
  - eauto.
  - eauto.
  - eauto.
  - exists x0. split; [by apply lookup_app_l_Some|done].
  - eauto.
  - eauto.
  - eauto.
Qed.

(** X3. The server never hangs up on a client whose [ffmpeg] still runs:
    in every reachable state, if the socket of a session has been
    terminated by the server, then the ['close'] event of the session's
    child has been delivered before. *)
Theorem session_socket_terminated_only_after_child_ended s ws p :
  reachable s -> session s ws p ->
  In (Terminate ws) (trace s) ->
  exists c, children s !! p = Some c /\ exited c = true.
Proof.
  intros Hr (x & Hx & Hev) Hin.
  destruct (terminate_implies_child_ended s Hr ws Hin)
    as (x' & Hx' & [E|(q & c & E & Hc & He)]); simplify_eq.
  - by rewrite Hev in E.
  - rewrite Hev in E. apply session_ws_events_inj in E. subst. eauto.
Qed.

Lemma session_socket_terminated_only_after_child_ended_witness :
  exists c,
    children (run [Connection (js "/rtmp/x"); ChildClose 0 (Some 1%Z) None] init) !! 0%nat
    = Some c /\ exited c = true.
Proof.
  apply (session_socket_terminated_only_after_child_ended _ 0 0).
  - by exists [Connection (js "/rtmp/x"); ChildClose 0 (Some 1%Z) None].
  - eexists; split; reflexivity.
  - vm_compute. right. right. right. left. reflexivity.
Defined.

Lemma imap_alter_keep {A B} (F : nat -> A -> B) (f : A -> A) (l : list A) (i : nat) :
  (forall j x, F j (f x) = F j x) ->
  imap F (alter f i l) = imap F l.
Proof.
  revert F i. induction l as [|a l IH]; intros F [|i] HF; simpl; try done.
  - by rewrite HF.
  - f_equal. apply IH. intros j x. apply HF.
Qed.

Lemma count_alter_keep {A} (h : A -> bool) (f : A -> A) (l : list A) (i : nat) :
  (forall x, h (f x) = h x) ->
  length (List.filter h (alter f i l)) = length (List.filter h l).
Proof.
  intros Hh. revert i. induction l as [|a l IH]; intros [|i]; try done.
  - change (alter f 0 (a :: l)) with (f a :: l). simpl. rewrite Hh.
    by destruct (h a).
  - change (alter f (S i) (a :: l)) with (a :: alter f i l). simpl.
    destruct (h a); simpl; by rewrite IH.
Qed.

Lemma count_listeners_alter (f : WebSocket -> WebSocket) (l : list WebSocket) i :
  (forall x, ws_events (f x) = ws_events x) ->
  length (List.filter has_listeners (alter f i l)) =
  length (List.filter has_listeners l).
Proof.
  intros Hf. apply count_alter_keep.
  intros x. unfold has_listeners. by rewrite Hf.
Qed.

Lemma spawn_accounting s :
  reachable s ->
  spawned (trace s) = imap (fun p c => (p, spawnfile c, spawnargs c)) (children s) /\
  (forall p c, children s !! p = Some c ->
     spawnfile c = js "ffmpeg" /\ exists dest, spawnargs c = ffmpeg_args dest) /\
  length (children s) = length (List.filter has_listeners (sockets s)).
Proof.
  revert s.
  apply (reachable_ind (fun s =>
    spawned (trace s) = imap (fun p c => (p, spawnfile c, spawnargs c)) (children s) /\
    (forall p c, children s !! p = Some c ->
       spawnfile c = js "ffmpeg" /\ exists dest, spawnargs c = ffmpeg_args dest) /\
    length (children s) = length (List.filter has_listeners (sockets s))));
    [done|].
  intros ev s s' Hwf Hrun (Hsp & Hff & Hn) Hv.
  destruct Hv; simpl;
    rewrite ?spawned_app, ?List.filter_app, ?length_app, ?imap_app,
      ?length_alter, ?count_listeners_alter
      by (done || apply terminated_events);
    simpl; rewrite ?app_nil_r, ?Nat.add_0_r; try done.
  - (* an accepted connection *)
    split_and!.
    + by rewrite Hsp.
    + intros p c [[_ Hc]|[-> <-]]%lookup_snoc_Some; [by eauto|].
      split; [done|]. by exists dest.
    + lia.
  - (* the end of a child *)
    split_and!;
      [|intros q c1 (c0 & Hc0 & [[_ ->]|[_ ->]])%lookup_alter_inv;
        exact (Hff q c0 Hc0)|done].
    by rewrite imap_alter_keep.
Qed.

(** X4. One [ffmpeg] per accepted connection, and nothing else: in every
    reachable state the processes spawned so far are exactly the child
    objects of the server, in order; each was started as [ffmpeg] with the
    thirteen fixed arguments followed by one destination; and there are as
    many children as sockets that carry listeners. *)
Theorem one_ffmpeg_per_accepted_connection s :
  reachable s ->
  spawned (trace s) = imap (fun p c => (p, spawnfile c, spawnargs c)) (children s) /\
  Forall (fun c => spawnfile c = js "ffmpeg" /\
                   exists dest, spawnargs c = ffmpeg_args dest /\
                                length (spawnargs c) = 14%nat /\
                                last (spawnargs c) = Some dest)
         (children s) /\
  length (children s) = length (List.filter has_listeners (sockets s)).
Proof.
  intros Hr. destruct (spawn_accounting s Hr) as (Hsp & Hff & Hn).
  split_and!; [done| |done].
  apply Forall_lookup. intros p c Hc.
  destruct (Hff p c Hc) as (Hf & dest & Ha). split; [done|].
  exists dest. by rewrite Ha.
Qed.

Lemma one_ffmpeg_per_accepted_connection_witness :
  length (children (run [ Connection (js "/rtmp/a"); Connection (js "/nonsense");
                          Connection (js "/rtmp/b"); WsClose 0 1000%Z ] init))
  = length (List.filter has_listeners
      (sockets (run [ Connection (js "/rtmp/a"); Connection (js "/nonsense");
                      Connection (js "/rtmp/b"); WsClose 0 1000%Z ] init))).
Proof.
  refine (proj2 (proj2 (one_ffmpeg_per_accepted_connection _ _))).
  by exists [ Connection (js "/rtmp/a"); Connection (js "/nonsense");
              Connection (js "/rtmp/b"); WsClose 0 1000%Z ].
Defined.

(** * The destination address between client and server *)

Example encode_rtmp_url :
  encodeURIComponent (js "rtmp://rtmp-api.facebook.com:80/rtmp/12345")
  = Some (js "rtmp%3A%2F%2Frtmp-api.facebook.com%3A80%2Frtmp%2F12345").
Proof. reflexivity. Qed.

Example encode_astral : encodeURIComponent [55357; 56832] = Some (js "%F0%9F%98%80").
Proof. reflexivity. Qed.

Example encode_lone_surrogate : encodeURIComponent [55357; 65] = None.
Proof. reflexivity. Qed.

Ltac Zify.zify_post_hook ::= Z.to_euclidean_division_equations.

Lemma hex_digit_hex_char d : d < 16 -> hex_digit (hex_char d) = Some d.
Proof.
  intros H.
  assert (d = 0 \/ d = 1 \/ d = 2 \/ d = 3 \/ d = 4 \/ d = 5 \/ d = 6 \/ d = 7 \/
          d = 8 \/ d = 9 \/ d = 10 \/ d = 11 \/ d = 12 \/ d = 13 \/ d = 14 \/ d = 15)
    as Hd by lia.
  repeat (destruct Hd as [->|Hd]; [reflexivity|]). by subst.
Qed.

Lemma unescape_percent b r :
  b < 256 ->
  unescape (percent b ++ r) =
  match unescape r with
  | Some items => Some (Octet b :: items)
  | None => None
  end.
Proof.
  intros Hb. unfold percent. simpl.
  rewrite !hex_digit_hex_char by lia.
  replace (16 * (b / 16) + b mod 16) with b by lia.
  reflexivity.
Qed.

Lemma is_unreserved_not_percent c : is_unreserved c = true -> c <> 37.
Proof. intros H ->. discriminate H. Qed.

Lemma unescape_lit c r :
  c <> 37 ->
  unescape (c :: r) =
  match unescape r with
  | Some items => Some (Lit c :: items)
  | None => None
  end.
Proof. intros H. simpl. by apply N.eqb_neq in H as ->. Qed.

Lemma unescape_octets bs r :
  Forall (fun b => b < 256) bs ->
  unescape (flat_map percent bs ++ r) =
  match unescape r with
  | Some items => Some (map Octet bs ++ items)
  | None => None
  end.
Proof.
  induction 1 as [|b bs Hb _ IH].
  - simpl. by destruct (unescape r).
  - change (flat_map percent (b :: bs)) with (percent b ++ flat_map percent bs).
    rewrite <- app_assoc, (unescape_percent b _ Hb), IH.
    by destruct (unescape r).
Qed.

Ltac case_ltb :=
  repeat match goal with
         | |- context [?a <? ?b] => destruct (N.ltb_spec a b); try lia
         end.

Lemma utf8_encode_octets v :
  v < 1114112 -> Forall (fun b => b < 256) (utf8_encode v).
Proof.
  intros Hv. unfold utf8_encode. case_ltb; repeat constructor; lia.
Qed.

Lemma is_true_and (a b : bool) : a = true -> b = true -> a && b = true.
Proof. by intros -> ->. Qed.

Ltac solve_bool :=
  repeat apply is_true_and;
  try (apply N.leb_le; lia); try (apply N.ltb_lt; lia).

Lemma utf16_encode_unit v : v < 65536 -> utf16_encode v = [v].
Proof. intros H. unfold utf16_encode. by case_ltb. Qed.

Lemma decode_items_utf8 v items :
  v < 1114112 -> is_surrogate v = false ->
  decode_items (map Octet (utf8_encode v) ++ items) =
  prepend (Some (utf16_encode v)) (decode_items items).
Proof.
  intros Hv Hs. unfold is_surrogate in Hs.
  apply andb_false_iff in Hs.
  assert (v < 55296 \/ 57343 < v) as Hs'.
  { destruct Hs as [H|H]; [apply N.leb_gt in H|apply N.leb_gt in H]; lia. }
  clear Hs. unfold utf8_encode.
  destruct (N.ltb_spec v 128); [|destruct (N.ltb_spec v 2048);
    [|destruct (N.ltb_spec v 65536)]]; cbn [map app decode_items].
  - destruct (N.ltb_spec v 128); [|lia].
    by rewrite utf16_encode_unit by lia.
  - case_ltb. unfold decode2.
    replace ((192 + v / 64 - 192) * 64 + (128 + v mod 64 - 128)) with v by lia.
    assert (is_continuation (128 + v mod 64) && (128 <=? v) = true) as ->; [|done].
    unfold is_continuation. solve_bool.
  - case_ltb. unfold decode3.
    replace ((224 + v / 4096 - 224) * 4096 + (128 + (v / 64) mod 64 - 128) * 64
             + (128 + v mod 64 - 128)) with v by lia.
    assert (is_continuation (128 + (v / 64) mod 64) &&
            is_continuation (128 + v mod 64) && (2048 <=? v) &&
            negb (is_surrogate v) = true) as ->; [|done].
    unfold is_continuation, is_surrogate. solve_bool.
    apply negb_true_iff, andb_false_iff.
    destruct Hs'; [left; apply N.leb_gt; lia|right; apply N.leb_gt; lia].
  - case_ltb. unfold decode4.
    replace ((240 + v / 262144 - 240) * 262144 + (128 + (v / 4096) mod 64 - 128) * 4096
             + (128 + (v / 64) mod 64 - 128) * 64 + (128 + v mod 64 - 128))
      with v by lia.
    assert (is_continuation (128 + (v / 4096) mod 64) &&
            is_continuation (128 + (v / 64) mod 64) &&
            is_continuation (128 + v mod 64) && (65536 <=? v) &&
            (v <=? 1114111) = true) as ->; [|done].
    unfold is_continuation. solve_bool.
Qed.

Lemma utf16_encode_pair h l :
  is_high_surrogate h = true -> is_low_surrogate l = true ->
  pair_code_point h l < 1114112 /\
  is_surrogate (pair_code_point h l) = false /\
  utf16_encode (pair_code_point h l) = [h; l].
Proof.
  unfold is_high_surrogate, is_low_surrogate, pair_code_point, is_surrogate,
    utf16_encode.
  intros [H1 H2]%andb_true_iff [H3 H4]%andb_true_iff.
  apply N.leb_le in H1, H2, H3, H4. split_and!.
  - lia.
  - apply andb_false_iff. right. apply N.leb_gt. lia.
  - case_ltb. f_equal; [lia|f_equal; lia].
Qed.

Lemma unescape_escape v r :
  v < 1114112 ->
  unescape (escape v ++ r) =
  match unescape r with
  | Some items => Some (map Octet (utf8_encode v) ++ items)
  | None => None
  end.
Proof. intros Hv. apply unescape_octets. by apply utf8_encode_octets. Qed.

Lemma strong_list_ind {A} (P : list A -> Prop) :
  (forall s, (forall t, (length t < length s)%nat -> P t) -> P s) ->
  forall s, P s.
Proof.
  intros H s. remember (length s) as n eqn:E. revert s E.
  induction n as [n IH] using lt_wf_ind. intros s ->.
  apply H. intros t Ht. by apply (IH (length t)).
Qed.

Lemma decode_encode_items s :
  valid_jsstring s ->
  forall e, encodeURIComponent s = Some e ->
  exists items, unescape e = Some items /\ decode_items items = Some s.
Proof.
  induction s as [s IH] using strong_list_ind. intros Hv e He.
  destruct s as [|c rest]; simpl in He.
  { injection He as <-. by exists []. }
  apply Forall_cons in Hv as [Hc Hv].
  destruct (is_unreserved c) eqn:Hu.
  - destruct (encodeURIComponent rest) as [e'|] eqn:He'; [|done].
    injection He as <-.
    destruct (IH rest (Nat.lt_succ_diag_r _) Hv e' He') as (items & Hun & Hde).
    exists (Lit c :: items).
    rewrite (unescape_lit c e' (is_unreserved_not_percent c Hu)), Hun.
    split; [done|]. simpl. by rewrite Hde.
  - destruct (is_low_surrogate c) eqn:Hl; [done|].
    destruct (is_high_surrogate c) eqn:Hh; simpl in He.
    + destruct rest as [|l rest']; [done|].
      destruct (is_low_surrogate l) eqn:Hl'; [|done].
      destruct (encodeURIComponent rest') as [e'|] eqn:He'; [|done].
      injection He as <-.
      apply Forall_cons in Hv as [_ Hv].
      destruct (IH rest') with (e := e') as (items & Hun & Hde);
        [simpl; lia|done|done|].
      destruct (utf16_encode_pair c l Hh Hl') as (Hlt & Hns & H16).
      exists (map Octet (utf8_encode (pair_code_point c l)) ++ items).
      rewrite (unescape_escape _ _ Hlt), Hun. split; [done|].
      by rewrite (decode_items_utf8 _ _ Hlt Hns), Hde, H16.
    + destruct (encodeURIComponent rest) as [e'|] eqn:He'; [|done].
      injection He as <-.
      destruct (IH rest (Nat.lt_succ_diag_r _) Hv e' He') as (items & Hun & Hde).
      assert (is_surrogate c = false) as Hns.
      { unfold is_surrogate, is_low_surrogate, is_high_surrogate in *.
        apply andb_false_iff. apply andb_false_iff in Hl, Hh.
        destruct Hl as [Hl|Hl], Hh as [Hh|Hh]; apply N.leb_gt in Hl, Hh;
          try (left; apply N.leb_gt; lia); try (right; apply N.leb_gt; lia). }
      exists (map Octet (utf8_encode c) ++ items).
      rewrite (unescape_escape c e') by lia. rewrite Hun. split; [done|].
      rewrite (decode_items_utf8 c items) by (done || lia).
      by rewrite Hde, utf16_encode_unit.
Qed.

Lemma decode_encode s e :
  valid_jsstring s ->
  encodeURIComponent s = Some e ->
  decodeURIComponent e = Some s.
Proof.
  intros Hv He. destruct (decode_encode_items s Hv e He) as (items & Hun & Hde).
  unfold decodeURIComponent. by rewrite Hun.
Qed.

Lemma hex_char_unreserved d : d < 16 -> is_unreserved (hex_char d) = true.
Proof.
  intros H.
  assert (d = 0 \/ d = 1 \/ d = 2 \/ d = 3 \/ d = 4 \/ d = 5 \/ d = 6 \/ d = 7 \/
          d = 8 \/ d = 9 \/ d = 10 \/ d = 11 \/ d = 12 \/ d = 13 \/ d = 14 \/ d = 15)
    as Hd by lia.
  repeat (destruct Hd as [->|Hd]; [reflexivity|]). by subst.
Qed.

Lemma escape_chars v : v < 1114112 -> Forall uri_char (escape v).
Proof.
  intros Hv. unfold escape.
  pose proof (utf8_encode_octets v Hv) as Hb.
  induction Hb as [|b bs Hb _ IH]; [constructor|].
  change (flat_map percent (b :: bs)) with (percent b ++ flat_map percent bs).
  apply Forall_app. split; [|done].
  unfold percent.
  apply List.Forall_cons; [by right|].
  apply List.Forall_cons; [left; apply hex_char_unreserved; lia|].
  apply List.Forall_cons; [left; apply hex_char_unreserved; lia|].
  apply List.Forall_nil.
Qed.

Lemma encode_chars s :
  valid_jsstring s ->
  forall e, encodeURIComponent s = Some e -> Forall uri_char e.
Proof.
  induction s as [s IH] using strong_list_ind. intros Hv e He.
  destruct s as [|c rest]; simpl in He.
  { injection He as <-. constructor. }
  apply Forall_cons in Hv as [Hc Hv].
  destruct (is_unreserved c) eqn:Hu.
  - destruct (encodeURIComponent rest) as [e'|] eqn:He'; [|done].
    injection He as <-. constructor; [by left|].
    by apply (IH rest (Nat.lt_succ_diag_r _) Hv).
  - destruct (is_low_surrogate c) eqn:Hl; [done|].
    destruct (is_high_surrogate c) eqn:Hh; simpl in He.
    + destruct rest as [|l rest']; [done|].
      destruct (is_low_surrogate l) eqn:Hl'; [|done].
      destruct (encodeURIComponent rest') as [e'|] eqn:He'; [|done].
      injection He as <-. apply Forall_cons in Hv as [_ Hv].
      apply Forall_app. split.
      * apply escape_chars. by destruct (utf16_encode_pair c l Hh Hl').
      * apply (IH rest'); [simpl; lia|done|done].
    + destruct (encodeURIComponent rest) as [e'|] eqn:He'; [|done].
      injection He as <-. apply Forall_app. split.
      * apply escape_chars. lia.
      * by apply (IH rest (Nat.lt_succ_diag_r _) Hv).
Qed.

Lemma uri_char_not_terminator c : uri_char c -> is_line_terminator c = false.
Proof.
  intros [H| ->]; [|done].
  destruct (is_line_terminator c) eqn:E; [|done].
  unfold is_line_terminator in E.
  repeat (apply orb_true_iff in E as [E|E]); apply N.eqb_eq in E; by subst.
Qed.

Lemma encoded_path_matches s e :
  valid_jsstring s -> encodeURIComponent s = Some e ->
  url_match (js "/rtmp/" ++ e) = Some e.
Proof.
  intros Hv He. apply url_match_spec. split; [done|].
  apply forallb_forall. intros c Hc%list_elem_of_In.
  pose proof (encode_chars s Hv e He) as Hall.
  rewrite Forall_forall in Hall. by rewrite (uri_char_not_terminator c (Hall c Hc)).
Qed.

Lemma encode_total s :
  Forall (fun c => is_surrogate c = false) s ->
  exists e, encodeURIComponent s = Some e.
Proof.
  induction 1 as [|c rest Hc _ [e' IH]]; [by exists []|].
  simpl. rewrite IH.
  assert (is_low_surrogate c = false /\ is_high_surrogate c = false) as [-> ->].
  { unfold is_surrogate, is_low_surrogate, is_high_surrogate in *.
    apply andb_false_iff in Hc. split; apply andb_false_iff;
      destruct Hc as [Hc|Hc]; apply N.leb_gt in Hc;
      try (left; apply N.leb_gt; lia); try (right; apply N.leb_gt; lia). }
  destruct (is_unreserved c); simpl; eauto.
Qed.

Lemma decode_without_percent s :
  Forall (fun c => c <> 37) s -> decodeURIComponent s = Some s.
Proof.
  intros H. unfold decodeURIComponent.
  assert (unescape s = Some (map Lit s)) as ->.
  { induction H as [|c r Hc _ IH]; [done|].
    by rewrite (unescape_lit c r Hc), IH. }
  clear H. induction s as [|c r IH]; [done|]. simpl. by rewrite IH.
Qed.

Lemma hex_digit_percent : hex_digit 37 = None.
Proof. reflexivity. Qed.

Lemma unescape_truncated s t :
  (length t <= 1)%nat -> unescape (s ++ 37 :: t) = None.
Proof.
  intros Ht. induction s as [s IH] using strong_list_ind.
  destruct s as [|c r].
  - destruct t as [|h [|? ?]]; simpl in *; try done; lia.
  - change ((c :: r) ++ 37 :: t) with (c :: (r ++ 37 :: t)).
    destruct (N.eqb_spec c 37) as [->|Hne].
    + destruct r as [|h1 [|h2 r']].
      * simpl. destruct t as [|h [|? ?]]; simpl in *; try done; lia.
      * simpl. by destruct (hex_digit h1).
      * simpl. rewrite (IH r') by (simpl; lia).
        by destruct (hex_digit h1), (hex_digit h2).
    + rewrite (unescape_lit c _ Hne), (IH r); [done|simpl; lia].
Qed.

(** X7. The request pattern accepts exactly the URLs that consist of
    ["/rtmp/"] and a suffix without line terminator, and captures that
    suffix: the prefix is case-sensitive and must include the second
    slash, and the suffix may be empty. *)
Theorem pattern_accepts_exactly_rtmp_prefix url :
  (forall m1, url_match url = Some m1 <->
              url = js "/rtmp/" ++ m1 /\ no_line_terminator m1) /\
  (url_match url = None <->
   forall m1, url = js "/rtmp/" ++ m1 -> ~ no_line_terminator m1).
Proof.
  split; [intros m1; apply url_match_spec|]. split.
  - intros Hn m1 -> Hm.
    assert (url_match (js "/rtmp/" ++ m1) = Some m1) as E
      by (by apply url_match_spec).
    congruence.
  - intros H. destruct (url_match url) as [m1|] eqn:E; [|done].
    apply url_match_spec in E as [-> Hm]. by destruct (H m1 eq_refl).
Qed.

(** X8. A string without percent sign is left unchanged by
    [decodeURIComponent]: a connection to ["/rtmp/test.flv"] has the
    destination ["test.flv"]. *)
Theorem decode_is_identity_without_percent s :
  Forall (fun c => c <> 37) s -> decodeURIComponent s = Some s.
Proof. apply decode_without_percent. Qed.

Lemma decode_is_identity_without_percent_witness :
  decodeURIComponent (js "test.flv") = Some (js "test.flv").
Proof.
  apply decode_is_identity_without_percent.
  repeat constructor; discriminate.
Defined.

(** X9. [decodeURIComponent] inverts [encodeURIComponent]: whenever the
    client's encoding of a string of 16-bit code units succeeds, the
    server's decoding of the result succeeds and gives the string back. *)
Theorem decode_inverts_encode s e :
  valid_jsstring s ->
  encodeURIComponent s = Some e ->
  decodeURIComponent e = Some s.
Proof. apply decode_encode. Qed.

Lemma decode_inverts_encode_witness :
  decodeURIComponent (js "rtmps%3A%2F%2Fh%3A443%2Frtmp%2F1%3Fa%3Db%26c%3D%25")
  = Some (js "rtmps://h:443/rtmp/1?a=b&c=%").
Proof.
  apply decode_inverts_encode; [|reflexivity].
  apply Forall_forall. intros c Hc%list_elem_of_In.
  vm_compute in Hc. repeat (destruct Hc as [<-|Hc]; [reflexivity|]). destruct Hc.
Defined.

(** X10. [encodeURIComponent] succeeds on every string without surrogate
    code units; and whenever it succeeds on a string of 16-bit code units,
    its result is made of unreserved characters and percent signs only, so
    the path ["/rtmp/"] followed by it matches the request pattern of the
    server, which captures it whole. *)
Theorem encoded_destination_matches_pattern s :
  valid_jsstring s ->
  (Forall (fun c => is_surrogate c = false) s ->
   exists e, encodeURIComponent s = Some e) /\
  (forall e, encodeURIComponent s = Some e ->
     Forall uri_char e /\ url_match (js "/rtmp/" ++ e) = Some e).
Proof.
  intros Hv. split; [apply encode_total|].
  intros e He. split; [by apply (encode_chars s)|by apply (encoded_path_matches s)].
Qed.

Lemma encoded_destination_matches_pattern_witness :
  url_match (js "/rtmp/a%20b%0A") = Some (js "a%20b%0A").
Proof.
  refine (proj2 (proj2 (encoded_destination_matches_pattern [97; 32; 98; 10] _)
                   (js "a%20b%0A") eq_refl)).
  repeat constructor.
Defined.

(** X11. The destination survives the trip from the page to [ffmpeg]: when
    the page builds its path from a stream URL of 16-bit code units without
    U+0000, a running server that receives a connection on that path spawns
    [ffmpeg] with exactly that stream URL as last argument, whatever other
    characters it contains, and keeps running. *)
Theorem client_destination_reaches_ffmpeg srv stream_url path :
  uncaught srv = None ->
  valid_jsstring stream_url ->
  has_nul stream_url = false ->
  websocket_path stream_url = Some path ->
  spawned (trace (step (Connection path) srv)) =
    spawned (trace srv) ++
    [(length (children srv), js "ffmpeg", ffmpeg_args stream_url)] /\
  last (ffmpeg_args stream_url) = Some stream_url /\
  session (step (Connection path) srv) (length (sockets srv)) (length (children srv)) /\
  uncaught (step (Connection path) srv) = None.
Proof.
  intros Hrun Hv Hn Hp. unfold websocket_path in Hp.
  destruct (encodeURIComponent stream_url) as [e|] eqn:He; [|done].
  assert (path = js "/rtmp/" ++ e) as -> by congruence.
  rewrite (step_connection_accept srv Hrun (js "/rtmp/" ++ e) e stream_url
             (encoded_path_matches _ _ Hv He) (decode_encode _ _ Hv He) Hn).
  simpl. split_and!; try done.
  - by rewrite spawned_app.
  - eexists. split; [by apply list_lookup_middle|done].
Qed.

Lemma client_destination_reaches_ffmpeg_witness :
  spawned (trace (step (Connection (js "/rtmp/rtmp%3A%2F%2Fh%2Fa%20b%3Fk%3D%C3%A9")) init))
  = [(0%nat, js "ffmpeg", ffmpeg_args (js "rtmp://h/a b?k=" ++ [233]))].
Proof.
  refine (proj1 (client_destination_reaches_ffmpeg init
                   (js "rtmp://h/a b?k=" ++ [233])
                   (js "/rtmp/rtmp%3A%2F%2Fh%2Fa%20b%3Fk%3D%C3%A9")
                   eq_refl _ eq_refl eq_refl)).
  apply Forall_forall. intros c Hc%list_elem_of_In.
  vm_compute in Hc. repeat (destruct Hc as [<-|Hc]; [reflexivity|]). destruct Hc.
Defined.

(** X12. A path under ["/rtmp/"] whose last or last but one code unit is a
    percent sign has no decoding: [decodeURIComponent] throws, and a
    running server that receives a connection on such a path is left with
    the uncaught URIError, before anything was logged or spawned. *)
Theorem truncated_escape_is_uncaught srv s t :
  uncaught srv = None ->
  no_line_terminator (s ++ 37 :: t) ->
  (length t <= 1)%nat ->
  decodeURIComponent (s ++ 37 :: t) = None /\
  uncaught (step (Connection (js "/rtmp/" ++ s ++ 37 :: t)) srv)
    = Some (Err (js "URIError") (js "URI malformed")) /\
  trace (step (Connection (js "/rtmp/" ++ s ++ 37 :: t)) srv) = trace srv /\
  children (step (Connection (js "/rtmp/" ++ s ++ 37 :: t)) srv) = children srv.
Proof.
  intros Hrun Hn Ht.
  assert (decodeURIComponent (s ++ 37 :: t) = None) as Hd.
  { unfold decodeURIComponent. by rewrite unescape_truncated. }
  split; [done|].
  by rewrite (step_connection_malformed srv Hrun _ (s ++ 37 :: t))
    by (done || by apply url_match_spec).
Qed.

Lemma truncated_escape_is_uncaught_witness :
  uncaught (step (Connection (js "/rtmp/" ++ js "rtmp%3A%2F%2Fhost%2Flive" ++ 37 :: js "2")) init)
  = Some (Err (js "URIError") (js "URI malformed")).
Proof.
  refine (proj1 (proj2 (truncated_escape_is_uncaught init
                          (js "rtmp%3A%2F%2Fhost%2Flive") (js "2") eq_refl _ _))).
  - reflexivity.
  - vm_compute. lia.
Defined.

(** * The canvas animation *)

Lemma onFrame_axes W H n x y z vx vy vz q :
  (1 <= W)%Z -> (1 <= H)%Z ->
  onFrame W H {| frameCount := n; rectState := [x; y; z];
                 rectStateVector := [vx; vy; vz]; requested := q |} =
  {| frameCount := n + 1;
     rectState := [x + axis_dir 0 W x vx; y + axis_dir 0 H y vy;
                   z + axis_dir 5 200 z vz]%Z;
     rectStateVector := [axis_dir 0 W x vx; axis_dir 0 H y vy;
                         axis_dir 5 200 z vz];
     requested := S q |}.
Proof.
  intros HW HH. unfold onFrame, axis_dir.
  destruct (Z.eqb_spec W 0); [lia|]. destruct (Z.eqb_spec H 0); [lia|]. cbn.
  destruct (x >=? W)%Z, (x <=? 0)%Z, (y >=? H)%Z, (y <=? 0)%Z,
    (z >=? 200)%Z, (z <=? 5)%Z; cbn; rewrite ?Z.mul_1_r; reflexivity.
Qed.

Lemma axis_dir_cases lo hi u v :
  (u <= lo /\ axis_dir lo hi u v = 1)%Z \/
  (lo < u /\ hi <= u /\ axis_dir lo hi u v = -1)%Z \/
  (lo < u < hi /\ axis_dir lo hi u v = v)%Z.
Proof.
  unfold axis_dir.
  destruct (Z.leb_spec u lo); [by left|right].
  destruct (Z.geb_spec u hi); [left|right]; lia.
Qed.


Lemma axis_step_wave lo m n u v :
  (1 <= m)%Z -> on_wave m n (u - lo) v ->
  on_wave m (n + 1) (u + axis_dir lo (lo + m) u v - lo) (axis_dir lo (lo + m) u v).
Proof.
  intros Hm (k & r & Hk & Hr & Hn & Hu & Hup & Hdown).
  destruct (axis_dir_cases lo (lo + m) u v) as [[? E]|[(? & ? & E)|[? E]]];
    rewrite E.
  - (* at the lower bound *)
    assert (r = 0)%Z as -> by lia.
    exists k, 1%Z. lia.
  - (* at the upper bound *)
    assert (r = m)%Z as -> by lia.
    destruct (Z.eq_dec m 1%Z) as [->|].
    + exists (k + 1)%Z, 0%Z. lia.
    + exists k, (m + 1)%Z. lia.
  - (* in between *)
    destruct (Z.lt_ge_cases r m).
    + exists k, (r + 1)%Z. lia.
    + destruct (Z.eq_dec (r + 1) (2 * m))%Z.
      * exists (k + 1)%Z, 0%Z. lia.
      * exists k, (r + 1)%Z. lia.
Qed.

Lemma on_wave_tri m n u v : (1 <= m)%Z -> on_wave m n u v -> u = tri m n.
Proof.
  intros Hm (k & r & Hk & Hr & Hn & Hu & _). unfold tri.
  assert (n mod (2 * m) = r)%Z as ->.
  { symmetry. apply (Z.mod_unique_pos n (2 * m) k r); lia. }
  destruct (Z.leb_spec r m); lia.
Qed.


Lemma wave_inv_frames W H n :
  (1 <= W)%Z -> (1 <= H)%Z ->
  wave_inv W H (Z.of_nat n + 1) (frames W H n).
Proof.
  intros HW HH. induction n as [|n IH].
  - unfold frames, onDOMContentLoaded, animation_start. simpl Nat.iter.
    rewrite onFrame_axes by done.
    eexists _, _, _, _, _, _. split_and!; try reflexivity.
    + replace W with (0 + W)%Z at 1 3 by lia.
      apply (axis_step_wave 0 W 0 0 1 HW). exists 0%Z, 0%Z. lia.
    + replace H with (0 + H)%Z at 1 3 by lia.
      apply (axis_step_wave 0 H 0 0 1 HH). exists 0%Z, 0%Z. lia.
    + apply (axis_step_wave 5 195 5 10 1); [lia|]. exists 0%Z, 5%Z. lia.
  - destruct IH as (x & y & z & vx & vy & vz & Hr & Hv & Hq & Hx & Hy & Hz).
    change (frames W H (S n)) with (animation_frame W H (frames W H n)).
    unfold animation_frame. rewrite Hq, Hr, Hv, onFrame_axes by done.
    eexists _, _, _, _, _, _. split_and!; try reflexivity.
    + replace (Z.of_nat (S n) + 1)%Z with (Z.of_nat n + 1 + 1)%Z by lia.
      replace W with (0 + W)%Z at 1 3 by lia.
      by apply (axis_step_wave 0 W).
    + replace (Z.of_nat (S n) + 1)%Z with (Z.of_nat n + 1 + 1)%Z by lia.
      replace H with (0 + H)%Z at 1 3 by lia.
      by apply (axis_step_wave 0 H).
    + replace (Z.of_nat (S n) + 1 + 5)%Z with (Z.of_nat n + 1 + 5 + 1)%Z by lia.
      by apply (axis_step_wave 5 195).
Qed.



(** X14. On a canvas with at least one pixel in each direction, the
    rectangle bounces without drift: after the page load and [n] animation
    frames its position is the triangle wave of the canvas width and of the
    canvas height at [n + 1], and its side is 5 plus the triangle wave of
    195 at [n + 6]. *)
Theorem rectangle_follows_triangle_wave W H n :
  (1 <= W)%Z -> (1 <= H)%Z ->
  rectState (frames W H n) =
  [ tri W (Z.of_nat n + 1); tri H (Z.of_nat n + 1);
    (5 + tri 195 (Z.of_nat n + 1 + 5))%Z ].
Proof.
  intros HW HH.
  destruct (wave_inv_frames W H n HW HH)
    as (x & y & z & vx & vy & vz & -> & _ & _ & Hx & Hy & Hz).
  apply on_wave_tri in Hx, Hy, Hz; try lia.
  f_equal; [lia|f_equal; [lia|f_equal; lia]].
Qed.

Lemma rectangle_follows_triangle_wave_witness :
  rectState (frames 640 360 999) = [280; 280; 170]%Z.
Proof.
  rewrite (rectangle_follows_triangle_wave 640 360 999) by lia.
  reflexivity.
Defined.

Example empty_canvas_never_moves :
  rectState (frames 0 360 25) = [0; 0; 10]%Z /\
  frameCount (frames 0 360 25) = 26%Z /\
  requested (frames 0 360 25) = 1%nat.
Proof. repeat split; reflexivity. Qed.
